(** * react-flow-editor: a shallow embedding of the editor engine

    The engine lives in [editor.tsx] (class [Editor] and the helpers around
    [EndpointImpl]) and the change-action taxonomy in [change-api.ts].
    Strings are lists of ASCII characters; JS numbers are rationals [Q]
    (geometry) or naturals (port indices). *)

From Stdlib Require Import Ascii String List Bool Arith Lia ZArith QArith.
From Stdlib Require Import DecimalNat.
Import ListNotations.

Open Scope nat_scope.
Open Scope list_scope.

(* ================================================================= *)
(** ** Strings *)

Definition str := list ascii.

Definition s (x : string) : str := list_ascii_of_string x.

Definition ch_us : ascii := "_"%char.

(** JS [.] (without the [s] flag) matches everything but line terminators. *)
Definition is_line_terminator (c : ascii) : bool :=
  Ascii.eqb c "010"%char || Ascii.eqb c "013"%char.

(** JS [\d] (without the [u] flag) is the ASCII digits. *)
Definition is_digit (c : ascii) : bool :=
  (48 <=? nat_of_ascii c) && (nat_of_ascii c <=? 57).

Fixpoint is_prefix (p t : str) : bool :=
  match p, t with
  | [], _ => true
  | a :: p', b :: t' => Ascii.eqb a b && is_prefix p' t'
  | _ :: _, [] => false
  end.

(** [String.prototype.indexOf]: first position of [p], or -1. *)
Fixpoint index_of_aux (p t : str) (pos : Z) : Z :=
  match t with
  | [] => if is_prefix p [] then pos else (-1)%Z
  | _ :: t' => if is_prefix p t then pos else index_of_aux p t' (pos + 1)
  end.

Definition index_of (p t : str) : Z := index_of_aux p t 0.

(** [p] occurs somewhere in [t]. *)
Fixpoint contains (p t : str) : bool :=
  is_prefix p t || match t with [] => false | _ :: t' => contains p t' end.

(** [String.prototype.substr(start, length)] for a non-negative start. *)
Definition substr (t : str) (start : Z) (len : option Z) : str :=
  let rest := skipn (Z.to_nat start) t in
  match len with
  | None => rest
  | Some l => if (l <=? 0)%Z then [] else firstn (Z.to_nat l) rest
  end.

(* ================================================================= *)
(** ** Numbers rendered in and parsed from decimal *)

Fixpoint uint_str (u : Decimal.uint) : str :=
  match u with
  | Decimal.Nil => []
  | Decimal.D0 u => "0"%char :: uint_str u
  | Decimal.D1 u => "1"%char :: uint_str u
  | Decimal.D2 u => "2"%char :: uint_str u
  | Decimal.D3 u => "3"%char :: uint_str u
  | Decimal.D4 u => "4"%char :: uint_str u
  | Decimal.D5 u => "5"%char :: uint_str u
  | Decimal.D6 u => "6"%char :: uint_str u
  | Decimal.D7 u => "7"%char :: uint_str u
  | Decimal.D8 u => "8"%char :: uint_str u
  | Decimal.D9 u => "9"%char :: uint_str u
  end.

(** Template-literal rendering of a port index: [`${port}`]. *)
Definition number_str (n : nat) : str := uint_str (Nat.to_uint n).

Fixpoint parse_digits_acc (t : str) (acc : nat) : nat :=
  match t with
  | [] => acc
  | c :: t' => parse_digits_acc t' (nat_of_ascii c - 48 + 10 * acc)
  end.

(** [parseInt] applied to a string of decimal digits. *)
Definition parseInt (t : str) : nat := parse_digits_acc t 0.

(* ================================================================= *)
(** ** Endpoint identity ([EndpointImpl]) *)

Inductive kind := KInput | KOutput.

Definition kind_str (k : kind) : str :=
  match k with KInput => s "input" | KOutput => s "output" end.

Record endpoint := mkEndpoint {
  ep_nodeId : str;
  ep_port : nat;
  ep_kind : kind
}.

(** [EndpointImpl.computeId]: [`${nodeId}_${connectionId}_${kind}`]. *)
Definition computeId (nodeId : str) (port : nat) (k : kind) : str :=
  nodeId ++ ch_us :: number_str port ++ ch_us :: kind_str k.

(** [EndpointImpl.computeIdIn]. *)
Definition computeIdIn (e : endpoint) : str :=
  ep_nodeId e ++ ch_us :: number_str (ep_port e) ++ ch_us :: kind_str (ep_kind e).

(** *** The decode pattern [/(.+)_(\d+)_(input|output)/]

    [RegExp.prototype.exec] with JS backtracking: the leftmost start
    position, then [(.+)] greedy (longest first), then [(\d+)] greedy, then
    the alternation [input|output] tried left to right. *)

Fixpoint dot_run (t : str) : nat :=
  match t with
  | c :: t' => if is_line_terminator c then 0 else S (dot_run t')
  | [] => 0
  end.

Fixpoint digit_run (t : str) : nat :=
  match t with
  | c :: t' => if is_digit c then S (digit_run t') else 0
  | [] => 0
  end.

Definition match_kind (t : str) : option kind :=
  if is_prefix (s "input") t then Some KInput
  else if is_prefix (s "output") t then Some KOutput
  else None.

(** [(\d+)_(input|output)] where [r] starts after the first underscore;
    [j] counts the digits still allowed to [\d+]. *)
Fixpoint try_digits (r : str) (j : nat) : option (str * kind) :=
  match j with
  | 0 => None
  | S j' =>
      match skipn (S j') r with
      | c :: r3 =>
          if Ascii.eqb c ch_us then
            match match_kind r3 with
            | Some k => Some (firstn (S j') r, k)
            | None => try_digits r j'
            end
          else try_digits r j'
      | [] => try_digits r j'
      end
  end.

(** [_(\d+)_(input|output)] *)
Definition match_tail (t : str) : option (str * kind) :=
  match t with
  | c :: r => if Ascii.eqb c ch_us then try_digits r (digit_run r) else None
  | [] => None
  end.

(** [(.+)] backtracking from [k] characters down to one. *)
Fixpoint try_group1 (t : str) (k : nat) : option (str * str * kind) :=
  match k with
  | 0 => None
  | S k' =>
      match match_tail (skipn (S k') t) with
      | Some (d, kd) => Some (firstn (S k') t, d, kd)
      | None => try_group1 t k'
      end
  end.

Definition match_at (t : str) : option (str * str * kind) :=
  try_group1 t (dot_run t).

Fixpoint regex_exec (t : str) : option (str * str * kind) :=
  match t with
  | [] => None
  | _ :: t' =>
      match match_at t with
      | Some m => Some m
      | None => regex_exec t'
      end
  end.

(** [EndpointImpl.extractEndpointInfo]; [None] is the thrown
    [Error("Illegal id string ...")]. *)
Definition extractEndpointInfo (id : str) : option endpoint :=
  match regex_exec id with
  | None => None
  | Some (n, d, k) => Some (mkEndpoint n (parseInt d) k)
  end.

(** [computeConnectionId]. *)
Definition computeConnectionId (input output : endpoint) : str :=
  computeIdIn input ++ s "__" ++ computeIdIn output.

(** [extractConnectionFromId]; [None] when either half throws. *)
Definition extractConnectionFromId (id : str) : option (endpoint * endpoint) :=
  let sepIndex := index_of (s "__") id in
  let inputId := substr id 0 (Some sepIndex) in
  let outputId := substr id (sepIndex + 2) None in
  match extractEndpointInfo inputId with
  | None => None
  | Some i =>
      match extractEndpointInfo outputId with
      | None => None
      | Some o => Some (i, o)
      end
  end.

(* ================================================================= *)
(** ** Graph data model ([types.ts] as used by the editor) *)

Definition str_eqb (a b : str) : bool :=
  if list_eq_dec ascii_dec a b then true else false.

Definition kind_eqb (a b : kind) : bool :=
  match a, b with KInput, KInput | KOutput, KOutput => true | _, _ => false end.

Record vec := mkVec { vx : Q; vy : Q }.

(** [Connection]: a reference to a peer port, with optional decoration. *)
Record connection := mkConn {
  c_nodeId : str;
  c_port : nat;
  c_classNames : option (list str);
  c_notes : option str
}.

(** The [connection] field of a port: [undefined], a single [Connection],
    or a [Connection[]]. *)
Inductive conn_val :=
| Absent
| Single (c : connection)
| Many (cs : list connection).

Record port := mkPort { p_name : str; p_connection : conn_val }.

Record node := mkNode {
  n_id : str;
  n_type : str;
  n_position : option vec;
  n_isCollapsed : option bool;
  n_inputs : list port;
  n_outputs : list port
}.

(** [NodeState] of [adjust.ts]: the per-node layout entry. *)
Record layout_entry := mkLayout { l_pos : vec; l_size : vec; l_collapsed : bool }.

Record transform := mkTransform { t_dx : Q; t_dy : Q; t_zoom : Q }.

Inductive item_type := ItemNode | ItemConnection.

(** The engine state. Node objects live in a heap (the JS objects, which
    closures capture by reference); [nodes] is [props.nodes], an array of
    references into it, mutated in place by [push] and [splice]. *)
Record engine := mkEngine {
  heap : list node;
  nodes : list nat;
  nodesState : list (str * layout_entry);
  transformation : transform;
  selection : option (item_type * str)
}.

(** In-place write of an array element that is known to exist. *)
Fixpoint set_nth {A} (l : list A) (i : nat) (x : A) : list A :=
  match l, i with
  | [], _ => []
  | _ :: l', 0 => x :: l'
  | y :: l', S i' => y :: set_nth l' i' x
  end.

Fixpoint remove_at {A} (i : nat) (l : list A) : list A :=
  match l, i with
  | [], _ => []
  | _ :: l', 0 => l'
  | y :: l', S i' => y :: remove_at i' l'
  end.

Fixpoint find_index {A} (f : A -> bool) (l : list A) : option nat :=
  match l with
  | [] => None
  | x :: l' => if f x then Some 0 else option_map S (find_index f l')
  end.

Definition node_at (st : engine) (r : nat) : option node := nth_error (heap st) r.

(** [nodes.find(node => node.id === id)]: the reference of the first match. *)
Definition find_ref (st : engine) (id : str) : option nat :=
  find (fun r => match node_at st r with
                 | Some n => str_eqb (n_id n) id
                 | None => false
                 end) (nodes st).

Definition write_node (st : engine) (r : nat) (n : node) : engine :=
  mkEngine (set_nth (heap st) r n) (nodes st) (nodesState st)
           (transformation st) (selection st).

Definition set_input_conn (n : node) (j : nat) (cv : conn_val) : node :=
  match nth_error (n_inputs n) j with
  | Some p => mkNode (n_id n) (n_type n) (n_position n) (n_isCollapsed n)
                     (set_nth (n_inputs n) j (mkPort (p_name p) cv)) (n_outputs n)
  | None => n
  end.

Definition set_output_conn (n : node) (j : nat) (cv : conn_val) : node :=
  match nth_error (n_outputs n) j with
  | Some p => mkNode (n_id n) (n_type n) (n_position n) (n_isCollapsed n)
                     (n_inputs n) (set_nth (n_outputs n) j (mkPort (p_name p) cv))
  | None => n
  end.

(** [compareConnections]. *)
Definition compareConnections (a b : connection) : bool :=
  (c_port a =? c_port b) && str_eqb (c_nodeId a) (c_nodeId b).

Definition plain_conn (nodeId : str) (p : nat) : connection :=
  mkConn nodeId p None None.

(** [Editor.removeFromArrayOrValue]: [toRemove] is a [Connection] ([inl]) or
    a [Connection[]] ([inr]); [value.splice(index, 1)] removes in place. *)
Definition removeFromArrayOrValue (value : conn_val)
    (toRemove : connection + list connection) : conn_val :=
  match value with
  | Many vs =>
      let remove_one it :=
        match find_index (compareConnections it) vs with
        | None => Many vs
        | Some index => Many (remove_at index vs)
        end in
      match toRemove with
      | inr (it :: _) => remove_one it
      | inr [] => Absent
      | inl it => remove_one it
      end
  | _ => Absent
  end.

(** The outcome of running engine code that may throw a [TypeError]:
    [Err] carries the state reached when the exception was raised. *)
Inductive res := Ok (st : engine) | Err (st : engine).

(** [Editor.removeConnection]; both nodes are looked up first, then the
    input side is written, then the output side. *)
Definition removeConnection (st : engine) (input output : endpoint) : res :=
  let inputNode := find_ref st (ep_nodeId input) in
  let outputNode := find_ref st (ep_nodeId output) in
  match inputNode with
  | None => Err st
  | Some ri =>
      match node_at st ri with
      | None => Err st
      | Some ni =>
          match nth_error (n_inputs ni) (ep_port input) with
          | None => Err st
          | Some pi =>
              let st1 := write_node st ri
                  (set_input_conn ni (ep_port input)
                     (removeFromArrayOrValue (p_connection pi)
                        (inl (plain_conn (ep_nodeId output) (ep_port output))))) in
              match outputNode with
              | None => Err st1
              | Some ro =>
                  match node_at st1 ro with
                  | None => Err st1
                  | Some no =>
                      match nth_error (n_outputs no) (ep_port output) with
                      | None => Err st1
                      | Some po =>
                          Ok (write_node st1 ro
                                (set_output_conn no (ep_port output)
                                   (removeFromArrayOrValue (p_connection po)
                                      (inl (plain_conn (ep_nodeId input) (ep_port input))))))
                      end
                  end
              end
          end
      end
  end.


(* ================================================================= *)
(** ** Change actions and the mutation protocol ([change-api.ts]) *)

Inductive action :=
| NodeRemoved (id : str) (correspondingConnections : list (endpoint * endpoint))
| ConnectionRemoved (id : str) (input output : endpoint)
| ConnectionCreated (input output : endpoint)
| NodeCreated (n : node)
| NodeCollapseChanged (id : str) (shouldBeCollapsed : bool)
| NodeMoved (id : str) (n : option node) (nodeState : layout_entry)
| TransformationChanged (dx dy zoom : Q).

(** The zero-argument [apply] continuations, as data: each constructor
    records the variables its closure captures. [MNoop] is the empty
    [() => {}] continuation. *)
Inductive mutation :=
| MCreateConnection (inputNode outputNode : nat) (input output : endpoint)
| MRemoveConnection (input output : endpoint)
| MRemoveNode (index : nat) (correspondingConnections : list (endpoint * endpoint))
| MCollapse (id : str) (desiredState : bool)
| MCreateNode (proto : node) (id : str) (pos : vec)
| MNoop.

(** What the engine itself calls: the host hook or the continuation. *)
Inductive event :=
| EvHook (a : action) (m : mutation)
| EvApply (m : mutation).

Inductive outcome :=
| Done (evs : list event) (st : engine)
| Thrown (evs : list event) (st : engine).


Definition outcome_state (o : outcome) : engine :=
  match o with Done _ st | Thrown _ st => st end.

Record config := mkConfig {
  onChanged : bool;            (* a host hook is registered *)
  demoMode : bool;
  disableZoom : bool;
  connectionValidator : option (endpoint -> endpoint -> bool)
}.

Definition set_nodesState (st : engine) (ns : list (str * layout_entry)) : engine :=
  mkEngine (heap st) (nodes st) ns (transformation st) (selection st).

Definition set_nodes (st : engine) (l : list nat) : engine :=
  mkEngine (heap st) l (nodesState st) (transformation st) (selection st).

Definition set_transformation (st : engine) (t : transform) : engine :=
  mkEngine (heap st) (nodes st) (nodesState st) t (selection st).

Definition set_selection (st : engine) (sel : option (item_type * str)) : engine :=
  mkEngine (heap st) (nodes st) (nodesState st) (transformation st) sel.

(** [Map.get] and [Map.set] on [nodesState] (insertion order kept). *)
Fixpoint map_get (m : list (str * layout_entry)) (k : str) : option layout_entry :=
  match m with
  | [] => None
  | (k', v) :: m' => if str_eqb k' k then Some v else map_get m' k
  end.

Fixpoint map_set (m : list (str * layout_entry)) (k : str) (v : layout_entry)
  : list (str * layout_entry) :=
  match m with
  | [] => [(k, v)]
  | (k', v') :: m' => if str_eqb k' k then (k', v) :: m' else (k', v') :: map_set m' k v
  end.

(** [updateProps] of [Editor.createConnection]. *)
Definition push_or_wrap (cv : conn_val) (c : connection) : conn_val :=
  match cv with
  | Many cs => Many (cs ++ [c])
  | _ => Many [c]
  end.

Definition apply_create (st : engine) (ri ro : nat) (input output : endpoint) : res :=
  match node_at st ri, node_at st ro with
  | Some ni, Some no0 =>
      let outputConnection := plain_conn (n_id no0) (ep_port output) in
      match nth_error (n_inputs ni) (ep_port input) with
      | None => Err st
      | Some pi =>
          let st1 := write_node st ri (set_input_conn ni (ep_port input)
                                         (push_or_wrap (p_connection pi) outputConnection)) in
          match node_at st1 ri, node_at st1 ro with
          | Some ni1, Some no =>
              let inputConnection := plain_conn (n_id ni1) (ep_port input) in
              match nth_error (n_outputs no) (ep_port output) with
              | None => Err st1
              | Some po =>
                  Ok (write_node st1 ro (set_output_conn no (ep_port output)
                                           (push_or_wrap (p_connection po) inputConnection)))
              end
          | _, _ => Err st1
          end
      end
  | _, _ => Err st
  end.

(** [updateProps] of the node branch of [Editor.onKeyDown]. *)
Fixpoint remove_all (st : engine) (cs : list (endpoint * endpoint)) : res :=
  match cs with
  | [] => Ok st
  | (i, o) :: cs' =>
      match removeConnection st i o with
      | Ok st1 => remove_all st1 cs'
      | Err st1 => Err st1
      end
  end.

Definition new_node_layout (pos : vec) : layout_entry :=
  mkLayout pos (mkVec 100 100) true.

Definition apply_mutation (m : mutation) (st : engine) : res :=
  match m with
  | MCreateConnection ri ro i o => apply_create st ri ro i o
  | MRemoveConnection i o => removeConnection st i o
  | MRemoveNode index cs =>
      match remove_all st cs with
      | Ok st1 => Ok (set_nodes st1 (remove_at index (nodes st1)))
      | Err st1 => Err st1
      end
  | MCollapse id desired =>
      match map_get (nodesState st) id with
      | None => Err st
      | Some ns =>
          Ok (set_nodesState st (map_set (nodesState st) id
                                   (mkLayout (l_pos ns) (l_size ns) desired)))
      end
  | MCreateNode proto id pos =>
      let n := mkNode id (n_type proto) (n_position proto) (n_isCollapsed proto)
                      (n_inputs proto) (n_outputs proto) in
      let st1 := mkEngine (heap st ++ [n]) (nodes st ++ [length (heap st)])
                          (nodesState st) (transformation st) (selection st) in
      Ok (set_nodesState st1 (map_set (nodesState st1) id (new_node_layout pos)))
  | MNoop => Ok st
  end.

(** The hand-off used by every confirm/apply call site:
    [if (config.onChanged) config.onChanged(action, apply);
     if (config.onChanged === undefined || config.demoMode) apply();] *)
Definition dispatch (cfg : config) (a : action) (m : mutation) (st : engine) : outcome :=
  let evs := if onChanged cfg then [EvHook a m] else [] in
  if negb (onChanged cfg) || demoMode cfg then
    match apply_mutation m st with
    | Ok st' => Done (evs ++ [EvApply m]) st'
    | Err st' => Thrown (evs ++ [EvApply m]) st'
    end
  else Done evs st.

Definition protocol_events (cfg : config) (a : action) (m : mutation) : list event :=
  (if onChanged cfg then [EvHook a m] else []) ++
  (if negb (onChanged cfg) || demoMode cfg then [EvApply m] else []).


(* ================================================================= *)
(** ** Event handlers of [Editor] *)

Notation "'let*' x := a 'in' b" :=
  (match a with Some x => b | None => None end)
  (at level 200, x pattern, a at level 100, b at level 200).

(** [isArrayOrUndefined] of [createConnection]. *)
Definition isArrayOrUndefined (cv : conn_val) : bool :=
  match cv with Single _ => false | _ => true end.

(** The port read [node.inputs[port].connection] of a looked-up node;
    [None] is the [TypeError] on an [undefined] node or port. *)
Definition input_conn (st : engine) (r : option nat) (j : nat) : option conn_val :=
  let* r := r in
  let* n := node_at st r in
  let* p := nth_error (n_inputs n) j in
  Some (p_connection p).

Definition output_conn (st : engine) (r : option nat) (j : nat) : option conn_val :=
  let* r := r in
  let* n := node_at st r in
  let* p := nth_error (n_outputs n) j in
  Some (p_connection p).

(** The guards of [Editor.createConnection], in source order. *)
Inductive cc_check := CCThrow | CCRefused | CCProposed (ri ro : nat).

Definition createConnection_check (cfg : config) (st : engine) (input output : endpoint)
  : cc_check :=
  let inputNode := find_ref st (ep_nodeId input) in
  let outputNode := find_ref st (ep_nodeId output) in
  if kind_eqb (ep_kind input) (ep_kind output) then CCRefused
  else
    match input_conn st inputNode (ep_port input) with
    | None => CCThrow
    | Some ci =>
        if negb (isArrayOrUndefined ci) then CCRefused
        else
          match output_conn st outputNode (ep_port output) with
          | None => CCThrow
          | Some co =>
              if negb (isArrayOrUndefined co) then CCRefused
              else
                let validated :=
                  match connectionValidator cfg with
                  | Some v => v output input
                  | None => true
                  end in
                if negb validated then CCRefused
                else
                  match inputNode, outputNode with
                  | Some ri, Some ro => CCProposed ri ro
                  | _, _ => CCThrow
                  end
          end
    end.

(** [Editor.createConnection]. *)
Definition createConnection (cfg : config) (st : engine) (input output : endpoint) : outcome :=
  match createConnection_check cfg st input output with
  | CCThrow => Thrown [] st
  | CCRefused => Done [] st
  | CCProposed ri ro =>
      dispatch cfg (ConnectionCreated input output) (MCreateConnection ri ro input output) st
  end.

(** [Editor.toggleExpandNode]; layout entries always carry [isCollapsed]. *)
Definition toggleExpandNode (cfg : config) (st : engine) (id : str) : outcome :=
  match map_get (nodesState st) id with
  | None => Thrown [] st
  | Some ns =>
      let desiredState := negb (l_collapsed ns) in
      dispatch cfg (NodeCollapseChanged id desiredState) (MCollapse id desiredState) st
  end.

(** [Editor.select]. *)
Definition select (st : engine) (t : item_type) (id : str) : engine :=
  set_selection st (Some (t, id)).

(** The helpers of the node branch of [Editor.onKeyDown]. *)
Definition isEmptyArrayOrUndefined (cv : conn_val) : bool :=
  match cv with Absent | Many [] => true | _ => false end.

(** [nodeIdPredicate(connection)(node)]; reading [.nodeId] of [undefined]
    throws. *)
Definition nodeIdPredicate (cv : conn_val) (n : node) : option bool :=
  match cv with
  | Many cs => Some (existsb (fun c => str_eqb (c_nodeId c) (n_id n)) cs)
  | Single c => Some (str_eqb (n_id n) (c_nodeId c))
  | Absent => None
  end.

(** [epPredicate(nodeId)(ep)] with no port argument. *)
Definition epPredicate (nodeId : str) (ep : port) : option bool :=
  match p_connection ep with
  | Many cs => Some (existsb (fun t => str_eqb (c_nodeId t) nodeId) cs)
  | Single t => Some (str_eqb (c_nodeId t) nodeId)
  | Absent => None
  end.

Fixpoint filter_opt {A} (f : A -> option bool) (l : list A) : option (list A) :=
  match l with
  | [] => Some []
  | x :: l' =>
      let* b := f x in
      let* r := filter_opt f l' in
      Some (if b then x :: r else r)
  end.

(** [ports.map((v, i) => ({v, i})).filter(o => pred(o.v)).map(o => o.i)]. *)
Fixpoint indices_where (f : port -> option bool) (ps : list port) (i : nat)
  : option (list nat) :=
  match ps with
  | [] => Some []
  | p :: ps' =>
      let* b := f p in
      let* r := indices_where f ps' (S i) in
      Some (if b then i :: r else r)
  end.

Definition node_list (st : engine) : list node :=
  flat_map (fun r => match node_at st r with Some n => [n] | None => [] end) (nodes st).

(** One side of the cascade: for the ports [ps] of [self] on side [side],
    the [{input, output}] pairs pushed into [correspondingConnections]. *)
Fixpoint cascade_ports (st : engine) (self : node) (side : kind) (ps : list port)
    (idx : nat) : option (list (endpoint * endpoint)) :=
  match ps with
  | [] => Some []
  | p :: ps' =>
      if isEmptyArrayOrUndefined (p_connection p) then cascade_ports st self side ps' (S idx)
      else
        let* peerNodes := filter_opt (nodeIdPredicate (p_connection p)) (node_list st) in
        let* here :=
          fold_right
            (fun peer acc =>
               let* acc := acc in
               let peerPorts := match side with
                                | KInput => n_outputs peer
                                | KOutput => n_inputs peer
                                end in
               let* ids := indices_where (epPredicate (n_id self)) peerPorts 0 in
               Some (map (fun j =>
                        match side with
                        | KInput => (mkEndpoint (n_id self) idx KInput,
                                     mkEndpoint (n_id peer) j KOutput)
                        | KOutput => (mkEndpoint (n_id peer) j KInput,
                                      mkEndpoint (n_id self) idx KOutput)
                        end) ids ++ acc))
            (Some []) peerNodes in
        let* rest := cascade_ports st self side ps' (S idx) in
        Some (here ++ rest)
  end.

Definition correspondingConnections (st : engine) (n : node)
  : option (list (endpoint * endpoint)) :=
  let* ins := cascade_ports st n KInput (n_inputs n) 0 in
  let* outs := cascade_ports st n KOutput (n_outputs n) 0 in
  Some (ins ++ outs).

(** The proposal of the node branch of [Editor.onKeyDown]: the index of the
    node and the cascaded connection removals. *)
Definition node_removal (st : engine) (id : str)
  : option (nat * list (endpoint * endpoint)) :=
  let* index := find_index (fun r => match node_at st r with
                                     | Some n => str_eqb (n_id n) id
                                     | None => false
                                     end) (nodes st) in
  let* r := nth_error (nodes st) index in
  let* nodeToDelete := node_at st r in
  let* cs := correspondingConnections st nodeToDelete in
  Some (index, cs).

Definition clear_selection (o : outcome) : outcome :=
  match o with
  | Done evs st => Done evs (set_selection st None)
  | Thrown evs st => Thrown evs st
  end.

(** [Editor.onKeyDown] with the Delete key. *)
Definition onKeyDownDelete (cfg : config) (st : engine) : outcome :=
  match selection st with
  | None => Done [] st
  | Some (ItemConnection, id) =>
      match extractConnectionFromId id with
      | None => Thrown [] st
      | Some (input, output) =>
          clear_selection
            (dispatch cfg (ConnectionRemoved id input output) (MRemoveConnection input output) st)
      end
  | Some (ItemNode, id) =>
      match node_removal st id with
      | None => Thrown [] st
      | Some (index, cs) =>
          clear_selection (dispatch cfg (NodeRemoved id cs) (MRemoveNode index cs) st)
      end
  end.

(** [Editor.onDragEnded] after a node drag that accumulated [(dx, dy)]:
    the position is written at once and the hook only gets [() => {}]. *)
Definition onDragEndedNode (cfg : config) (st : engine) (id : str) (dx dy : Q) : outcome :=
  let node := let* r := find_ref st id in node_at st r in
  match map_get (nodesState st) id with
  | None => Thrown [] st
  | Some ns =>
      let ns' := mkLayout (mkVec (vx (l_pos ns) + dx) (vy (l_pos ns) + dy))
                          (l_size ns) (l_collapsed ns) in
      let st' := set_nodesState st (map_set (nodesState st) id ns') in
      Done (if onChanged cfg then [EvHook (NodeMoved id node ns') MNoop] else []) st'
  end.

(** [Editor.onDragEnded] after a canvas pan ending at transformation [t]. *)
Definition onDragEndedTranslate (cfg : config) (st : engine) (t : transform) : outcome :=
  let cur := transformation st in
  if negb (Qeq_bool (t_dx t) (t_dx cur)) || negb (Qeq_bool (t_dy t) (t_dy cur))
     || negb (Qeq_bool (t_zoom t) (t_zoom cur)) then
    Done (if onChanged cfg
          then [EvHook (TransformationChanged (t_dx t) (t_dy t) (t_zoom t)) MNoop] else [])
         (set_transformation st t)
  else Done [] st.

(** [Math.pow(1.25, Math.sign(deltaY))], in exact arithmetic. *)
Definition zoomFactor (deltaY : Q) : Q :=
  if Qlt_le_dec 0 deltaY then 5 # 4
  else if Qlt_le_dec deltaY 0 then 4 # 5
  else 1.

(** The transformation computed by [Editor.onWheel]. *)
Definition wheel_transform (pt : transform) (deltaY cx cy : Q) : transform :=
  let zoom := (t_zoom pt * zoomFactor deltaY)%Q in
  let dy := (cy * (t_zoom pt - zoom) + t_dy pt)%Q in
  let dx := (cx * (t_zoom pt - zoom) + t_dx pt)%Q in
  mkTransform dx dy zoom.

(** [Editor.onWheel]. *)
Definition onWheel (cfg : config) (st : engine) (ctrlKey : bool) (deltaY cx cy : Q) : outcome :=
  if ctrlKey then Done [] st
  else if disableZoom cfg then Done [] st
  else
    let t := wheel_transform (transformation st) deltaY cx cy in
    Done (if onChanged cfg
          then [EvHook (TransformationChanged (t_dx t) (t_dy t) (t_zoom t)) MNoop] else [])
         (set_transformation st t).

(** [Editor.createNewNode]; [hash] is the random suffix and [bounds] the
    editor's bounding rectangle [(x, y, width, height)]. *)
Definition createNewNode (cfg : config) (st : engine) (proto : node) (hash : str)
    (pos : vec) (bounds : Q * Q * Q * Q) : outcome :=
  let '(bx, by_, bw, bh) := bounds in
  let isInRange (min size value : Q) := Qle_bool min value && Qle_bool value (min + size)%Q in
  if negb (isInRange bx bw (vx pos) && isInRange by_ bh (vy pos)) then Done [] st
  else
    let pos' := mkVec (vx pos - bx)%Q (vy pos - by_)%Q in
    let id := n_type proto ++ ch_us :: hash in
    let n := mkNode id (n_type proto) (n_position proto) (n_isCollapsed proto)
                    (n_inputs proto) (n_outputs proto) in
    let st0 := if onChanged cfg
               then set_nodesState st (map_set (nodesState st) id (new_node_layout pos'))
               else st in
    dispatch cfg (NodeCreated n) (MCreateNode proto id pos') st0.


(* ================================================================= *)
(** ** Connection derivation ([Editor.render], "Find all connections") *)

(** The endpoints pushed into [connections], with their decoration. *)
Record edge_end := mkEdgeEnd {
  ee_nodeId : str;
  ee_port : nat;
  ee_kind : kind;
  ee_classNames : option (list str);
  ee_notes : option str
}.

(** [nodeDict]: filled with [set] in node order, so the last node carrying
    an id is the one [get] returns. *)
Definition nodeDict_get (ns : list node) (id : str) : option node :=
  find (fun n => str_eqb (n_id n) id) (rev ns).

(** [filterIfArray]; [None] stands for [undefined]. *)
Definition filterIfArray (cv : conn_val) (predicate : connection -> bool)
  : option connection :=
  match cv with
  | Many cs => find predicate cs
  | Single c => Some c
  | Absent => None
  end.

(** [oppConnection]: [None] when reading it, or its [classNames], throws. *)
Definition opp_connection (opponentNode self : node) (c : connection) : option connection :=
  let* po := nth_error (n_outputs opponentNode) (c_port c) in
  filterIfArray (p_connection po) (fun x => str_eqb (c_nodeId x) (n_id self)).

Definition derived_edge (self : node) (i : nat) (c oc : connection) : edge_end * edge_end :=
  (mkEdgeEnd (n_id self) i KInput (c_classNames c) (c_notes c),
   mkEdgeEnd (c_nodeId c) (c_port c) KOutput (c_classNames oc) (c_notes oc)).

Fixpoint derive_many (ns : list node) (self : node) (i : nat) (cs : list connection)
  : option (list (edge_end * edge_end)) :=
  match cs with
  | [] => Some []
  | c :: cs' =>
      match nodeDict_get ns (c_nodeId c) with
      | None => derive_many ns self i cs'
      | Some opponentNode =>
          let* oc := opp_connection opponentNode self c in
          let* rest := derive_many ns self i cs' in
          Some (derived_edge self i c oc :: rest)
      end
  end.

(** The loop over [node.inputs] with its counter [i]; a [continue] skips
    the [++i] at the end of the loop body. *)
Fixpoint derive_inputs (ns : list node) (self : node) (ins : list port) (i : nat)
  : option (list (edge_end * edge_end)) :=
  match ins with
  | [] => Some []
  | p :: ps =>
      match p_connection p with
      | Absent => derive_inputs ns self ps i
      | Many cs =>
          let* here := derive_many ns self i cs in
          let* rest := derive_inputs ns self ps (S i) in
          Some (here ++ rest)
      | Single c =>
          match nodeDict_get ns (c_nodeId c) with
          | None => derive_inputs ns self ps i
          | Some opponentNode =>
              let* oc := opp_connection opponentNode self c in
              if negb (existsb (fun n => str_eqb (n_id n) (c_nodeId c)) ns)
              then derive_inputs ns self ps i
              else
                let* rest := derive_inputs ns self ps (S i) in
                Some (derived_edge self i c oc :: rest)
          end
      end
  end.

(** The edge list of one render pass, as [{in, out}] pairs; [None] when the
    pass throws. *)
Definition derive_connections (ns : list node) : option (list (edge_end * edge_end)) :=
  fold_right (fun n acc =>
                let* here := derive_inputs ns n (n_inputs n) 0 in
                let* acc := acc in
                Some (here ++ acc)) (Some []) ns.

(* ================================================================= *)
(** ** Initial layout ([Editor.initialState]) *)

(** Modelled from the spec: [Rect] of [geometry.ts] (its constructor, [hit],
    [right] and [top]) is not under src/. Following the spec, [new Rect(pos,
    size)] is the rectangle at [pos] of extent [size], [hit] tests whether a
    point falls inside it (borders included), [right] is its far x edge and
    [top] its y coordinate. *)
Record rect := mkRect { r_pos : vec; r_size : vec }.

Definition rect_right (r : rect) : Q := (vx (r_pos r) + vx (r_size r))%Q.
Definition rect_top (r : rect) : Q := vy (r_pos r).
Definition rect_hit (r : rect) (p : vec) : bool :=
  Qle_bool (vx (r_pos r)) (vx p) && Qle_bool (vx p) (rect_right r) &&
  Qle_bool (vy (r_pos r)) (vy p) && Qle_bool (vy p) (vy (r_pos r) + vy (r_size r))%Q.

Definition margin : vec := mkVec 100 100.

(** The loop [for (let place of usedPlace) { if (place.hit(pos)) pos.x = ...;
    pos.y = place.top; }]: the second assignment is outside the [if]. *)
Fixpoint find_place (usedPlace : list rect) (pos : vec) : vec :=
  match usedPlace with
  | [] => pos
  | place :: rest =>
      let x := if rect_hit place pos then (rect_right place + vx margin)%Q else vx pos in
      find_place rest (mkVec x (rect_top place))
  end.

Definition base_position : vec := mkVec (10 + vx margin) (10 + vy margin).

Fixpoint map_has (m : list (str * layout_entry)) (k : str) : bool :=
  match m with
  | [] => false
  | (k', _) :: m' => str_eqb k' k || map_has m' k
  end.

(** The [nodesState] built by [Editor.initialState] ([connectionState],
    the port anchor offsets, is left out). *)
Fixpoint initial_layout (ns : list node) (nodesState : list (str * layout_entry))
    (usedPlace : list rect) : list (str * layout_entry) :=
  match ns with
  | [] => nodesState
  | n :: ns' =>
      if map_has nodesState (n_id n) then initial_layout ns' nodesState usedPlace
      else
        let pos := match n_position n with
                   | Some p => p
                   | None => find_place usedPlace base_position
                   end in
        let size := mkVec 100 100 in
        let collapsed := match n_isCollapsed n with Some true => true | _ => false end in
        initial_layout ns' (map_set nodesState (n_id n) (mkLayout pos size collapsed))
                       (usedPlace ++ [mkRect pos size])
  end.

Definition initialState_layout (ns : list node) : list (str * layout_entry) :=
  initial_layout ns [] [].

(** The placement rule as the spec words it, for comparison with
    [find_place]: only a rectangle that is hit moves the candidate. *)
Fixpoint find_place_spec (usedPlace : list rect) (pos : vec) : vec :=
  match usedPlace with
  | [] => pos
  | place :: rest =>
      if rect_hit place pos
      then find_place_spec rest (mkVec (rect_right place + vx margin)%Q (rect_top place))
      else find_place_spec rest pos
  end.

(* ================================================================= *)
(** ** Coordinate transform *)

(** The model-space point shown at screen point [(cx, cy)] when
    [screen = model * zoom + (dx, dy)]. *)
Definition model_point (t : transform) (cx cy : Q) : Q * Q :=
  ((cx - t_dx t) / t_zoom t, (cy - t_dy t) / t_zoom t)%Q.


(** The [connection] field of port [j] on side [side] of the node object
    [r]. *)
Definition port_conn (st : engine) (r : nat) (side : kind) (j : nat) : option conn_val :=
  match side with
  | KInput => input_conn st (Some r) j
  | KOutput => output_conn st (Some r) j
  end.

(** [c] is among the references a port holds (compared as
    [compareConnections] does: node id and port). *)
Definition conn_mem (c : connection) (cv : conn_val) : bool :=
  match cv with
  | Absent => false
  | Single c' => compareConnections c c'
  | Many cs => existsb (compareConnections c) cs
  end.

(** No character of [t] is a line terminator. *)
Definition no_line_terminator (t : str) : bool :=
  forallb (fun c => negb (is_line_terminator c)) t.

(** The number of connections a port holds. *)
Definition conn_count (cv : conn_val) : nat :=
  match cv with
  | Absent => 0
  | Single _ => 1
  | Many cs => length cs
  end.

(** A small graph: [A.outputs[0]] and [B.inputs[0]] hold each other as
    single values, [C.outputs[0]] is free; the connection is selected. *)
Definition fx_node (id : string) (ins outs : list port) : node :=
  mkNode (s id) (s "t") None None ins outs.

Definition fx_A : node := fx_node "A" [] [mkPort (s "out") (Single (plain_conn (s "B") 0))].
Definition fx_B : node := fx_node "B" [mkPort (s "in") (Single (plain_conn (s "A") 0))] [].
Definition fx_C : node := fx_node "C" [] [mkPort (s "out") Absent].

Definition fx_Bin : endpoint := mkEndpoint (s "B") 0 KInput.
Definition fx_Aout : endpoint := mkEndpoint (s "A") 0 KOutput.
Definition fx_Cout : endpoint := mkEndpoint (s "C") 0 KOutput.

Definition fx_single_engine : engine :=
  mkEngine [fx_A; fx_B; fx_C] [0; 1; 2] [] (mkTransform 0 0 1)
           (Some (ItemConnection, computeConnectionId fx_Bin fx_Aout)).

(** No [onChanged] hook: every proposal is applied at once. *)
Definition fx_cfg_nohook : config := mkConfig false false false None.

(** An [onChanged] hook without [demoMode]. *)
Definition fx_cfg_hook : config := mkConfig true false false None.

(** Two free ports: [A.outputs[0]] and [B.inputs[0]]. *)
Definition fx_pair_engine : engine :=
  mkEngine [fx_node "A" [] [mkPort (s "out") Absent];
            fx_node "B" [mkPort (s "in") Absent] []]
           [0; 1] [] (mkTransform 0 0 1) None.

(** Fixture: [A.outputs[0]] connected twice to [B.inputs[0]], then [A]
    selected, without a hook. *)
Definition fx_cascade_engine : engine :=
  let st1 := outcome_state (createConnection fx_cfg_nohook fx_pair_engine fx_Bin fx_Aout) in
  let st2 := outcome_state (createConnection fx_cfg_nohook st1 fx_Bin fx_Aout) in
  select st2 ItemNode (s "A").

(* ================================================================= *)
(** ** Pointer gestures ([Editor.currentAction] and its handlers) *)

(** Modelled from the spec: [BUTTON_LEFT] and [BUTTON_MIDDLE] come from
    [constants.ts], which is not under src/; they are the primary and the
    middle mouse button (spec 4.4), and the code only compares [e.button]
    with them. *)
Inductive button := ButtonLeft | ButtonMiddle | ButtonOther.

(** Modelled from the spec: [Vector2d] of [geometry.ts] is not under src/;
    [Vector2d.subtract(a, b)] is the cursor delta [a - b] (spec 4.4) and
    [Vector2d.add(a, b)] the sum, component-wise. *)
Definition vsub (a b : vec) : vec := mkVec (vx a - vx b)%Q (vy a - vy b)%Q.
Definition vadd (a b : vec) : vec := mkVec (vx a + vx b)%Q (vy a + vy b)%Q.

(** The three shapes of [currentAction]. *)
Inductive gesture :=
| GNode (lastPos : vec) (id : str) (dx dy : Q)
| GConnection (lastPos : vec) (ep : endpoint)
| GTranslate (lastPos : vec) (t : transform).

Definition gesture_lastPos (g : gesture) : vec :=
  match g with GNode p _ _ _ | GConnection p _ | GTranslate p _ => p end.

Definition set_lastPos (g : gesture) (p : vec) : gesture :=
  match g with
  | GNode _ id dx dy => GNode p id dx dy
  | GConnection _ ep => GConnection p ep
  | GTranslate _ t => GTranslate p t
  end.

(** The editor: the engine state together with the fields the gesture
    handlers read and write. [workingItem] is the [(input, output)] pair
    of the preview segment; [editorBoundingRect] is kept as its origin. *)
Record editor := mkEditor {
  ed_engine : engine;
  currentAction : option gesture;
  workingItem : option (vec * vec);
  connectionState : list (str * vec);
  editorBoundingRect : option vec
}.

Definition set_engine (ed : editor) (st : engine) : editor :=
  mkEditor st (currentAction ed) (workingItem ed) (connectionState ed) (editorBoundingRect ed).

Definition set_current (ed : editor) (g : option gesture) : editor :=
  mkEditor (ed_engine ed) g (workingItem ed) (connectionState ed) (editorBoundingRect ed).

Definition set_working (ed : editor) (w : option (vec * vec)) : editor :=
  mkEditor (ed_engine ed) (currentAction ed) w (connectionState ed) (editorBoundingRect ed).

Fixpoint vmap_get (m : list (str * vec)) (k : str) : option vec :=
  match m with
  | [] => None
  | (k', v) :: m' => if str_eqb k' k then Some v else vmap_get m' k
  end.

(** [Editor.onDragStarted]. *)
Definition onDragStarted (ed : editor) (id : str) (b : button) (pos : vec) : editor :=
  match b with
  | ButtonLeft => set_current ed (Some (GNode pos id 0 0))
  | _ => ed
  end.

(** [Editor.onMouseGlobalDown]; [onSvg] is [e.target.nodeName === 'svg']. *)
Definition onMouseGlobalDown (ed : editor) (b : button) (pos : vec) (onSvg : bool) : editor :=
  let translate := Some (GTranslate pos (transformation (ed_engine ed))) in
  match b with
  | ButtonMiddle => set_current ed translate
  | ButtonLeft =>
      let ed1 := if onSvg then set_current ed translate else ed in
      set_engine ed1 (set_selection (ed_engine ed1) None)
  | ButtonOther => ed
  end.

(** [Editor.onCreateConnectionStarted] ([pos] is [(e.screenX, e.screenY)]). *)
Definition onCreateConnectionStarted (ed : editor) (ep : endpoint) (pos : vec) : editor :=
  set_current ed (Some (GConnection pos ep)).

(** [Editor.onDrag]; [None] is a [TypeError] (an [undefined] bounding rect,
    endpoint offset or layout entry). The inline style written to the
    dragged node's element (node gesture) or to the nodes container (pan)
    is DOM output, not editor state, and is left out. *)
Definition onDrag (ed : editor) (newPos : vec) : option editor :=
  match currentAction ed with
  | None => Some ed
  | Some g =>
      let d := vsub newPos (gesture_lastPos g) in
      let* ed1 :=
        match g with
        | GNode lp id dx dy =>
            Some (set_current ed (Some (GNode lp id (dx + vx d) (dy + vy d))%Q))
        | GConnection lp ep =>
            let* r := editorBoundingRect ed in
            let free := vsub newPos r in
            let key := computeId (ep_nodeId ep) (ep_port ep) (ep_kind ep) in
            let* offset := vmap_get (connectionState ed) key in
            let* ns := map_get (nodesState (ed_engine ed)) (ep_nodeId ep) in
            let fixed := vadd offset (l_pos ns) in
            Some (set_working ed (Some (match ep_kind ep with
                                        | KInput => (fixed, free)
                                        | KOutput => (free, fixed)
                                        end)))
        | GTranslate lp t =>
            Some (set_current ed (Some (GTranslate lp
                    (mkTransform (t_dx t + vx d) (t_dy t + vy d) (t_zoom t)))%Q))
        end in
      match currentAction ed1 with
      | Some g1 => Some (set_current ed1 (Some (set_lastPos g1 newPos)))
      | None => Some ed1
      end
  end.

(** A run of [mousemove] events. *)
Fixpoint onDrag_all (ed : editor) (ps : list vec) : option editor :=
  match ps with
  | [] => Some ed
  | p :: ps' => let* ed1 := onDrag ed p in onDrag_all ed1 ps'
  end.

(** [Editor.onCreateConnectionEnded] over the port [ep]: the input
    endpoint is passed first. *)
Definition onCreateConnectionEnded (cfg : config) (ed : editor) (ep : endpoint) : outcome :=
  match currentAction ed with
  | Some (GConnection _ e0) =>
      match ep_kind e0 with
      | KInput => createConnection cfg (ed_engine ed) e0 ep
      | KOutput => createConnection cfg (ed_engine ed) ep e0
      end
  | _ => Done [] (ed_engine ed)
  end.

Inductive ui_outcome :=
| UDone (evs : list event) (ed : editor)
| UThrown (evs : list event) (ed : editor).

(** [Editor.onDragEnded]: commit the gesture, then reset [currentAction]
    and [workingItem]; a [TypeError] in the node branch skips the reset. *)
Definition onDragEnded (cfg : config) (ed : editor) : ui_outcome :=
  let reset st := set_working (set_current (set_engine ed st) None) None in
  match currentAction ed with
  | Some (GNode _ id dx dy) =>
      match onDragEndedNode cfg (ed_engine ed) id dx dy with
      | Done evs st' => UDone evs (reset st')
      | Thrown evs st' => UThrown evs (set_engine ed st')
      end
  | Some (GTranslate _ t) =>
      match onDragEndedTranslate cfg (ed_engine ed) t with
      | Done evs st' => UDone evs (reset st')
      | Thrown evs st' => UThrown evs (set_engine ed st')
      end
  | _ => UDone [] (reset (ed_engine ed))
  end.

(** Fixture: an editor over [fx_single_engine] where [A] has a layout
    entry and no gesture is active. *)
Definition fx_layout_A : layout_entry := mkLayout (mkVec 110 110) (mkVec 100 100) false.

Definition fx_editor : editor :=
  mkEditor (set_nodesState fx_single_engine [(s "A", fx_layout_A)]) None None [] None.

(* ================================================================= *)
(** * Proofs *)

(* ----------------------------------------------------------------- *)
(** ** Endpoint identity *)

Example extract_ex1 :
  extractEndpointInfo (computeId (s "node_1") 12 KOutput) =
  Some (mkEndpoint (s "node_1") 12 KOutput).
Proof. vm_compute. reflexivity. Qed.

Example extract_ex2 :
  extractConnectionFromId
    (computeConnectionId (mkEndpoint (s "b") 0 KInput) (mkEndpoint (s "a") 3 KOutput)) =
  Some (mkEndpoint (s "b") 0 KInput, mkEndpoint (s "a") 3 KOutput).
Proof. vm_compute. reflexivity. Qed.


Lemma digit_not_us c : is_digit c = true -> Ascii.eqb c ch_us = false.
Proof.
  intros H. destruct (Ascii.eqb_spec c ch_us) as [->|]; [discriminate H|reflexivity].
Qed.

Lemma digit_not_lt c : is_digit c = true -> is_line_terminator c = false.
Proof.
  unfold is_line_terminator. intros H.
  destruct (Ascii.eqb_spec c "010"%char) as [->|]; [discriminate H|].
  destruct (Ascii.eqb_spec c "013"%char) as [->|]; [discriminate H|].
  reflexivity.
Qed.

Lemma uint_str_digits u : Forall (fun c => is_digit c = true) (uint_str u).
Proof. induction u; simpl; constructor; auto. Qed.

Lemma number_str_nonempty n : number_str n <> [].
Proof.
  unfold number_str. intros H.
  destruct (Nat.to_uint n) eqn:E; try discriminate H.
  pose proof (DecimalNat.Unsigned.of_to n) as Hn. rewrite E in Hn.
  simpl in Hn. subst n. discriminate E.
Qed.

Lemma parse_digits_acc_uint u acc :
  parse_digits_acc (uint_str u) acc = Nat.of_uint_acc u acc.
Proof.
  revert acc; induction u; intros acc; simpl; rewrite ?IHu, ?Nat.tail_mul_spec;
    try reflexivity; f_equal; lia.
Qed.

Lemma parseInt_number_str n : parseInt (number_str n) = n.
Proof.
  unfold parseInt, number_str. rewrite parse_digits_acc_uint.
  apply DecimalNat.Unsigned.of_to.
Qed.

Lemma forall_digits_skipn (D : str) m :
  Forall (fun c => is_digit c = true) D ->
  Forall (fun c => is_digit c = true) (skipn m D).
Proof.
  revert D; induction m; intros D HD; [exact HD|].
  destruct D; simpl; [constructor|]. inversion HD; auto.
Qed.

Lemma dot_run_full t : no_line_terminator t = true -> dot_run t = length t.
Proof.
  induction t as [|c t IH]; simpl; [reflexivity|].
  intros H. apply andb_prop in H as [H1 H2].
  destruct (is_line_terminator c); [discriminate H1|]. rewrite IH; auto.
Qed.

Lemma no_lt_digits D :
  Forall (fun c => is_digit c = true) D -> no_line_terminator D = true.
Proof.
  induction 1; simpl; [reflexivity|]. rewrite digit_not_lt; auto.
Qed.

Lemma no_lt_app a b :
  no_line_terminator (a ++ b) = no_line_terminator a && no_line_terminator b.
Proof. unfold no_line_terminator. apply forallb_app. Qed.

Lemma digit_run_app D c r :
  Forall (fun c => is_digit c = true) D -> is_digit c = false ->
  digit_run (D ++ c :: r) = length D.
Proof.
  intros HD Hc. induction HD as [|x D Hx HD IH]; simpl.
  - rewrite Hc. reflexivity.
  - rewrite Hx, IH. reflexivity.
Qed.

Lemma match_kind_str k : match_kind (kind_str k) = Some k.
Proof. destruct k; reflexivity. Qed.

Lemma kind_tail_none k j : match_tail (skipn j (ch_us :: kind_str k)) = None.
Proof.
  destruct k; do 8 (destruct j as [|j]; [reflexivity|]); destruct j; reflexivity.
Qed.

Lemma match_tail_some t r :
  match_tail t = Some r -> exists c t', t = ch_us :: c :: t' /\ is_digit c = true.
Proof.
  destruct t as [|c0 r0]; simpl; [discriminate|].
  destruct (Ascii.eqb_spec c0 ch_us) as [->|]; [|discriminate].
  destruct r0 as [|c t']; simpl; [discriminate|].
  destruct (is_digit c) eqn:Hc; [|discriminate].
  intros _. eauto.
Qed.

Lemma try_digits_S r j :
  try_digits r (S j) =
  match skipn (S j) r with
  | c :: r3 =>
      if Ascii.eqb c ch_us then
        match match_kind r3 with
        | Some k => Some (firstn (S j) r, k)
        | None => try_digits r j
        end
      else try_digits r j
  | [] => try_digits r j
  end.
Proof. reflexivity. Qed.

Lemma match_tail_encoded D k :
  D <> [] -> Forall (fun c => is_digit c = true) D ->
  match_tail (ch_us :: D ++ ch_us :: kind_str k) = Some (D, k).
Proof.
  intros Hne HD. unfold match_tail. rewrite Ascii.eqb_refl.
  rewrite digit_run_app by (auto; reflexivity).
  destruct (length D) as [|j] eqn:Hl; [destruct D; [congruence|discriminate]|].
  rewrite try_digits_S, <- Hl, skipn_app, skipn_all, Nat.sub_diag. simpl.
  rewrite match_kind_str, firstn_app, firstn_all, Nat.sub_diag, app_nil_r.
  reflexivity.
Qed.

(** Every proper suffix of the encoded tail fails [match_tail]. *)
Lemma match_tail_suffix D k m :
  Forall (fun c => is_digit c = true) D ->
  match_tail (skipn (S m) (ch_us :: D ++ ch_us :: kind_str k)) = None.
Proof.
  intros HD. simpl skipn. rewrite skipn_app.
  destruct (Nat.lt_ge_cases m (length D)) as [Hlt|Hge].
  - replace (m - length D) with 0 by lia. simpl skipn.
    pose proof (forall_digits_skipn D m HD) as Hs.
    destruct (skipn m D) as [|c l] eqn:E.
    + apply (f_equal (@length ascii)) in E. rewrite length_skipn in E. simpl in E. lia.
    + inversion Hs; subst.
      destruct (match_tail ((c :: l) ++ ch_us :: kind_str k)) eqn:Em; [|reflexivity].
      apply match_tail_some in Em as (c' & t' & Ht & _). simpl in Ht.
      injection Ht as -> _. discriminate.
  - rewrite skipn_all2 by exact Hge. simpl. apply kind_tail_none.
Qed.

Lemma try_group1_S t k :
  try_group1 t (S k) =
  match match_tail (skipn (S k) t) with
  | Some (d, kd) => Some (firstn (S k) t, d, kd)
  | None => try_group1 t k
  end.
Proof. reflexivity. Qed.

Lemma try_group1_skip t k j :
  j <= k -> (forall m, j < m <= k -> match_tail (skipn m t) = None) ->
  try_group1 t k = try_group1 t j.
Proof.
  induction k as [|k IH]; intros Hjk Hm.
  - replace j with 0 by lia. reflexivity.
  - destruct (Nat.eq_dec j (S k)) as [->|Hne]; [reflexivity|].
    rewrite try_group1_S, Hm by lia. apply IH; [lia|]. intros m Hm'. apply Hm. lia.
Qed.

Lemma no_lt_encoded_tail D k :
  Forall (fun c => is_digit c = true) D ->
  no_line_terminator (ch_us :: D ++ ch_us :: kind_str k) = true.
Proof.
  intros HD. change (ch_us :: D ++ ch_us :: kind_str k)
    with ([ch_us] ++ D ++ ch_us :: kind_str k).
  rewrite !no_lt_app, (no_lt_digits D HD). destruct k; reflexivity.
Qed.

Lemma computeId_split n p k :
  computeId n p k = n ++ ch_us :: number_str p ++ ch_us :: kind_str k.
Proof. reflexivity. Qed.

Lemma regex_exec_encoded n p k :
  n <> [] -> no_line_terminator n = true ->
  regex_exec (computeId n p k) = Some (n, number_str p, k).
Proof.
  intros Hne Hlt. rewrite computeId_split.
  set (D := number_str p). set (T := ch_us :: D ++ ch_us :: kind_str k).
  assert (HD : Forall (fun c => is_digit c = true) D) by apply uint_str_digits.
  assert (HDne : D <> []) by apply number_str_nonempty.
  assert (Hmatch : match_at (n ++ T) = Some (n, D, k)).
  { unfold match_at.
    rewrite dot_run_full
      by (rewrite no_lt_app, Hlt; apply no_lt_encoded_tail; exact HD).
    rewrite (try_group1_skip _ _ (length n)).
    - destruct (length n) as [|j] eqn:Hl; [destruct n; [congruence|discriminate]|].
      rewrite try_group1_S, <- Hl, skipn_app, skipn_all, Nat.sub_diag.
      change ([] ++ skipn 0 T) with T. unfold T. rewrite match_tail_encoded by assumption.
      rewrite firstn_app, firstn_all, Nat.sub_diag, app_nil_r. reflexivity.
    - rewrite length_app. lia.
    - intros m Hm. rewrite skipn_app, skipn_all2 by lia. simpl app.
      replace (m - length n) with (S (m - length n - 1)) by lia.
      apply match_tail_suffix. exact HD. }
  destruct n as [|c n']; [congruence|].
  simpl app. simpl regex_exec. simpl app in Hmatch. rewrite Hmatch. reflexivity.
Qed.

(** Decoding an endpoint id recovers the endpoint whenever the node id is
    non-empty and free of line terminators. *)
Lemma extract_computeId n p k :
  n <> [] -> no_line_terminator n = true ->
  extractEndpointInfo (computeId n p k) = Some (mkEndpoint n p k).
Proof.
  intros Hne Hlt. unfold extractEndpointInfo.
  rewrite regex_exec_encoded by assumption. rewrite parseInt_number_str.
  reflexivity.
Qed.

Lemma index_of_aux_cons p x t pos :
  index_of_aux p (x :: t) pos =
  if is_prefix p (x :: t) then pos else index_of_aux p t (pos + 1).
Proof. reflexivity. Qed.

Lemma index_of_aux_digits D R acc :
  Forall (fun c => is_digit c = true) D ->
  index_of_aux (s "__") (D ++ R) acc =
  index_of_aux (s "__") R (acc + Z.of_nat (length D)).
Proof.
  intros HD. revert acc. induction HD as [|d D Hd HD IH]; intros acc.
  - simpl. f_equal. lia.
  - simpl app. cbn [index_of_aux].
    destruct (Ascii.eqb_spec ch_us d) as [Heq|].
    + rewrite <- Heq in Hd. discriminate Hd.
    + change (is_prefix (s "__") (d :: D ++ R))
        with (Ascii.eqb ch_us d && is_prefix [ch_us] (D ++ R)).
      destruct (Ascii.eqb_spec ch_us d); [contradiction|]. simpl andb.
      rewrite IH. f_equal. simpl length. lia.
Qed.

Lemma index_of_aux_node n c R acc :
  contains (s "__") (n ++ [ch_us]) = false -> c <> ch_us ->
  index_of_aux (s "__") (n ++ ch_us :: c :: R) acc =
  index_of_aux (s "__") (c :: R) (acc + Z.of_nat (length n) + 1).
Proof.
  revert acc. induction n as [|x n IH]; intros acc Hc Hne.
  - simpl app. rewrite index_of_aux_cons.
    change (is_prefix (s "__") (ch_us :: c :: R))
      with (Ascii.eqb ch_us ch_us && (Ascii.eqb ch_us c && true)).
    destruct (Ascii.eqb_spec ch_us c) as [He|]; [congruence|].
    rewrite andb_false_r. f_equal. simpl length. lia.
  - simpl app. rewrite index_of_aux_cons.
    simpl app in Hc. cbn [contains] in Hc. apply orb_false_iff in Hc as [Hp Hc].
    assert (Hp' : is_prefix (s "__") (x :: n ++ ch_us :: c :: R) = false).
    { destruct n as [|y n]; simpl in Hp |- *; [exact Hp|].
      exact Hp. }
    rewrite Hp', IH by assumption. f_equal. simpl length. lia.
Qed.

Lemma index_of_connection i o :
  contains (s "__") (ep_nodeId i ++ [ch_us]) = false ->
  index_of (s "__") (computeConnectionId i o) = Z.of_nat (length (computeIdIn i)).
Proof.
  intros Hsep. unfold computeConnectionId, computeIdIn, index_of.
  set (D := number_str (ep_port i)).
  assert (HD : Forall (fun c => is_digit c = true) D) by apply uint_str_digits.
  assert (HDne : D <> []) by apply number_str_nonempty.
  set (K := kind_str (ep_kind i)). set (B := ep_nodeId o ++ _).
  rewrite <- app_assoc, <- app_comm_cons, <- app_assoc, <- app_comm_cons.
  destruct D as [|d D'] eqn:ED; [congruence|].
  inversion HD as [|? ? Hd HD']; subst.
  rewrite <- app_comm_cons.
  rewrite index_of_aux_node by (auto; intros ->; discriminate Hd).
  rewrite app_comm_cons, <- ED, index_of_aux_digits by (rewrite ED; exact HD).
  rewrite !length_app. simpl length.
  unfold K. destruct (ep_kind i); simpl; rewrite ?length_app; simpl; lia.
Qed.

Lemma extract_connection_computed i o :
  ep_nodeId i <> [] -> no_line_terminator (ep_nodeId i) = true ->
  contains (s "__") (ep_nodeId i ++ [ch_us]) = false ->
  ep_nodeId o <> [] -> no_line_terminator (ep_nodeId o) = true ->
  extractConnectionFromId (computeConnectionId i o) = Some (i, o).
Proof.
  intros Hi Hli Hsep Ho Hlo. unfold extractConnectionFromId.
  rewrite index_of_connection by exact Hsep.
  assert (Hlen : length (computeIdIn i) > 0).
  { unfold computeIdIn. rewrite length_app. destruct (ep_nodeId i); [congruence|simpl; lia]. }
  assert (H1 : substr (computeConnectionId i o) 0 (Some (Z.of_nat (length (computeIdIn i))))
               = computeIdIn i).
  { unfold substr. simpl skipn.
    destruct (Z.of_nat (length (computeIdIn i)) <=? 0)%Z eqn:E; [lia|].
    rewrite Nat2Z.id. unfold computeConnectionId.
    rewrite firstn_app, firstn_all, Nat.sub_diag, app_nil_r. reflexivity. }
  assert (H2 : substr (computeConnectionId i o) (Z.of_nat (length (computeIdIn i)) + 2) None
               = computeIdIn o).
  { unfold substr, computeConnectionId.
    replace (Z.to_nat (Z.of_nat (length (computeIdIn i)) + 2))
      with (length (computeIdIn i) + 2) by lia.
    rewrite skipn_app, skipn_all2 by lia. simpl app.
    replace (length (computeIdIn i) + 2 - length (computeIdIn i)) with 2 by lia.
    reflexivity. }
  rewrite H1, H2. destruct i as [ni pi ki], o as [no po ko].
  unfold computeIdIn; simpl in *.
  rewrite <- !computeId_split, !extract_computeId by assumption. reflexivity.
Qed.

(** C1 (amended): the id encodings round-trip when node ids are non-empty and
    free of line terminators; the connection id additionally needs that the
    input node id contains no ["__"] and does not end with ['_'], i.e. that
    [nodeId ++ "_"] contains no ["__"]. *)
Theorem id_roundtrip (e i o : endpoint) :
  ep_nodeId e <> [] -> no_line_terminator (ep_nodeId e) = true ->
  ep_nodeId i <> [] -> no_line_terminator (ep_nodeId i) = true ->
  contains (s "__") (ep_nodeId i ++ [ch_us]) = false ->
  ep_nodeId o <> [] -> no_line_terminator (ep_nodeId o) = true ->
  extractEndpointInfo (computeId (ep_nodeId e) (ep_port e) (ep_kind e)) = Some e /\
  extractConnectionFromId (computeConnectionId i o) = Some (i, o).
Proof.
  intros He Hle Hi Hli Hsep Ho Hlo. split.
  - rewrite extract_computeId by assumption. destruct e; reflexivity.
  - apply extract_connection_computed; assumption.
Qed.

Lemma id_roundtrip_witness :
  let e := mkEndpoint (s "node") 7 KOutput in
  let i := mkEndpoint (s "in_1") 0 KInput in
  let o := mkEndpoint (s "out__2") 3 KOutput in
  extractEndpointInfo (computeId (ep_nodeId e) (ep_port e) (ep_kind e)) = Some e /\
  extractConnectionFromId (computeConnectionId i o) = Some (i, o).
Proof.
  intros e i o.
  apply (id_roundtrip e i o); try discriminate; reflexivity.
Defined.

(** C1 (as stated) fails: a node id with a line feed loses its prefix under
    decoding, and an input node id ending in ['_'] makes the connection id
    split too early, so decoding throws. Neither id contains ["__"]. *)
Lemma id_roundtrip_counterexample :
  let nl := ["x"%char; "010"%char; "y"%char] in
  contains (s "__") nl = false /\ contains (s "__") (s "a_") = false /\
  extractEndpointInfo (computeId nl 0 KInput) = Some (mkEndpoint (s "y") 0 KInput) /\
  extractConnectionFromId
    (computeConnectionId (mkEndpoint (s "a_") 0 KInput) (mkEndpoint (s "b") 0 KOutput))
  = None.
Proof. vm_compute. repeat split. Qed.

Lemma last_app_nonempty (l1 l2 : str) d :
  l2 <> [] -> last (l1 ++ l2) d = last l2 d.
Proof.
  intros H. induction l1 as [|x l1 IH]; [reflexivity|].
  simpl app. rewrite <- IH. destruct (l1 ++ l2) eqn:E; [|reflexivity].
  apply app_eq_nil in E as [_ ->]. congruence.
Qed.

Lemma computeId_last n p k : last (computeId n p k) " "%char = "t"%char.
Proof.
  replace (computeId n p k) with ((n ++ ch_us :: number_str p ++ [ch_us]) ++ kind_str k)
    by (unfold computeId; rewrite <- !app_assoc, <- app_comm_cons, <- app_assoc; reflexivity).
  rewrite last_app_nonempty by (destruct k; discriminate).
  destruct k; reflexivity.
Qed.

(** C10: the decode pattern is not anchored, so a string that encodes no
    endpoint (an endpoint id followed by extra characters) is accepted. *)
Theorem extract_accepts_non_encoding :
  exists id,
    (forall n p k, computeId n p k <> id) /\
    extractEndpointInfo id = Some (mkEndpoint (s "a") 0 KInput).
Proof.
  exists (s "a_0_inputX"). split.
  - intros n p k Heq. pose proof (computeId_last n p k) as Hl.
    rewrite Heq in Hl. discriminate Hl.
  - vm_compute. reflexivity.
Qed.

(* ----------------------------------------------------------------- *)
(** ** Heap and port updates *)

Lemma str_eqb_refl a : str_eqb a a = true.
Proof. unfold str_eqb. destruct (list_eq_dec ascii_dec a a); congruence. Qed.

Lemma str_eqb_eq a b : str_eqb a b = true -> a = b.
Proof. unfold str_eqb. destruct (list_eq_dec ascii_dec a b); congruence. Qed.

Lemma nth_error_set_nth {A} (l : list A) i x j :
  nth_error (set_nth l i x) j =
  if Nat.eqb j i then option_map (fun _ => x) (nth_error l j) else nth_error l j.
Proof.
  revert i j; induction l as [|y l IH]; intros i j.
  - destruct j, i; simpl; try destruct (_ =? _); reflexivity.
  - destruct i as [|i], j as [|j]; simpl; try reflexivity. apply IH.
Qed.

Lemma find_ref_some st id r :
  find_ref st id = Some r -> exists n, node_at st r = Some n /\ n_id n = id.
Proof.
  unfold find_ref. intros H. apply find_some in H as [_ H].
  destruct (node_at st r) as [n|]; [|discriminate].
  exists n. split; [reflexivity|]. apply str_eqb_eq. exact H.
Qed.

Lemma node_at_write st r0 n r :
  node_at (write_node st r0 n) r =
  if Nat.eqb r r0 then option_map (fun _ => n) (node_at st r) else node_at st r.
Proof. unfold node_at, write_node. simpl. apply nth_error_set_nth. Qed.

Lemma port_conn_write_input st r0 n j0 p cv r side j :
  node_at st r0 = Some n -> nth_error (n_inputs n) j0 = Some p ->
  port_conn (write_node st r0 (set_input_conn n j0 cv)) r side j =
  if Nat.eqb r r0 && kind_eqb side KInput && Nat.eqb j j0 then Some cv
  else port_conn st r side j.
Proof.
  intros Hn Hp. unfold port_conn, input_conn, output_conn.
  rewrite node_at_write. destruct (Nat.eqb_spec r r0) as [->|Hne]; simpl.
  - rewrite Hn. simpl. unfold set_input_conn. rewrite Hp.
    destruct side; simpl.
    + rewrite nth_error_set_nth. destruct (Nat.eqb_spec j j0) as [->|]; simpl.
      * rewrite Hp. reflexivity.
      * reflexivity.
    + reflexivity.
  - destruct side; reflexivity.
Qed.

Lemma port_conn_write_output st r0 n j0 p cv r side j :
  node_at st r0 = Some n -> nth_error (n_outputs n) j0 = Some p ->
  port_conn (write_node st r0 (set_output_conn n j0 cv)) r side j =
  if Nat.eqb r r0 && kind_eqb side KOutput && Nat.eqb j j0 then Some cv
  else port_conn st r side j.
Proof.
  intros Hn Hp. unfold port_conn, input_conn, output_conn.
  rewrite node_at_write. destruct (Nat.eqb_spec r r0) as [->|Hne]; simpl.
  - rewrite Hn. simpl. unfold set_output_conn. rewrite Hp.
    destruct side; simpl.
    + reflexivity.
    + rewrite nth_error_set_nth. destruct (Nat.eqb_spec j j0) as [->|]; simpl.
      * rewrite Hp. reflexivity.
      * reflexivity.
  - destruct side; reflexivity.
Qed.

Lemma node_id_write_input st r0 n j0 cv r :
  option_map n_id (node_at (write_node st r0 (set_input_conn n j0 cv)) r) =
  if Nat.eqb r r0 then option_map (fun _ => n_id n) (node_at st r)
  else option_map n_id (node_at st r).
Proof.
  rewrite node_at_write. destruct (Nat.eqb r r0); [|reflexivity].
  destruct (node_at st r); simpl; [|reflexivity].
  unfold set_input_conn. destruct (nth_error (n_inputs n) j0); reflexivity.
Qed.

Lemma conn_mem_push cv c : conn_mem c (push_or_wrap cv c) = true.
Proof.
  assert (Hc : compareConnections c c = true)
    by (unfold compareConnections; rewrite Nat.eqb_refl, str_eqb_refl; reflexivity).
  destruct cv as [| |cs]; simpl; rewrite ?Hc; try reflexivity.
  rewrite existsb_app. simpl. rewrite Hc, orb_true_r. reflexivity.
Qed.

(* ----------------------------------------------------------------- *)
(** ** Connection creation *)

(** C7: a connection attempt between endpoints of the same kind, into a
    port holding a single (non-array) connection, or rejected by the host
    validator, emits nothing, throws nothing and changes nothing. The
    attempted ports are the ones the gesture started and ended on, so they
    exist. *)
Theorem createConnection_refused cfg st i o :
  let inputNode := find_ref st (ep_nodeId i) in
  let outputNode := find_ref st (ep_nodeId o) in
  ep_kind i = ep_kind o \/
  ((exists ci, input_conn st inputNode (ep_port i) = Some ci) /\
   (exists co, output_conn st outputNode (ep_port o) = Some co) /\
   ((exists c, input_conn st inputNode (ep_port i) = Some (Single c)) \/
    (exists c, output_conn st outputNode (ep_port o) = Some (Single c)) \/
    (exists v, connectionValidator cfg = Some v /\ v o i = false))) ->
  createConnection cfg st i o = Done [] st.
Proof.
  intros inputNode outputNode H. unfold createConnection, createConnection_check.
  fold inputNode outputNode.
  destruct (kind_eqb (ep_kind i) (ep_kind o)) eqn:Ek; [reflexivity|].
  destruct H as [Hk|([ci Hi] & [co Ho] & H)].
  { rewrite Hk in Ek. destruct (ep_kind o); discriminate Ek. }
  rewrite Hi, Ho.
  destruct H as [[c Hc]|[[c Hc]|(v & Hv & Hr)]].
  - rewrite Hi in Hc. injection Hc as ->. reflexivity.
  - rewrite Ho in Hc. injection Hc as ->.
    destruct (negb (isArrayOrUndefined ci)); reflexivity.
  - rewrite Hv, Hr.
    destruct (negb (isArrayOrUndefined ci)), (negb (isArrayOrUndefined co)); reflexivity.
Qed.

Lemma createConnection_refused_witness :
  let pA := mkPort (s "p") Absent in
  let st := mkEngine [mkNode (s "A") (s "t") None None [pA] [pA]] [0] []
                     (mkTransform 0 1 1) None in
  let e := mkEndpoint (s "A") 0 KInput in
  createConnection (mkConfig false false false None) st e e = Done [] st.
Proof.
  intros pA st e. apply createConnection_refused. left. reflexivity.
Defined.

Lemma check_proposed_refs cfg st i o ri ro :
  createConnection_check cfg st i o = CCProposed ri ro ->
  find_ref st (ep_nodeId i) = Some ri /\ find_ref st (ep_nodeId o) = Some ro.
Proof.
  unfold createConnection_check.
  destruct (kind_eqb _ _); [discriminate|].
  destruct (input_conn _ _ _); [|discriminate].
  destruct (negb _); [discriminate|].
  destruct (output_conn _ _ _); [|discriminate].
  destruct (negb _); [discriminate|].
  destruct (negb _); [discriminate|].
  destruct (find_ref st (ep_nodeId i)), (find_ref st (ep_nodeId o)); try discriminate.
  intros H; injection H as -> ->. auto.
Qed.

(** C2: when the continuation of a proposed [ConnectionCreated] runs to
    completion, the input port of the node object found for the input
    endpoint references the output endpoint's [(nodeId, port)] and the
    output port of the node found for the output endpoint references the
    input endpoint's. The continuation may run in a later state [st1]; the
    engine never rewrites a node's [id], which is the one assumption made on
    [st1]. *)
Theorem create_apply_mirrors cfg st i o ri ro st1 st1' :
  createConnection_check cfg st i o = CCProposed ri ro ->
  option_map n_id (node_at st1 ri) = option_map n_id (node_at st ri) ->
  option_map n_id (node_at st1 ro) = option_map n_id (node_at st ro) ->
  apply_mutation (MCreateConnection ri ro i o) st1 = Ok st1' ->
  find_ref st (ep_nodeId i) = Some ri /\ find_ref st (ep_nodeId o) = Some ro /\
  (exists cv, port_conn st1' ri KInput (ep_port i) = Some cv /\
              conn_mem (plain_conn (ep_nodeId o) (ep_port o)) cv = true) /\
  (exists cv, port_conn st1' ro KOutput (ep_port o) = Some cv /\
              conn_mem (plain_conn (ep_nodeId i) (ep_port i)) cv = true).
Proof.
  intros Hc Hidi Hido Happ.
  destruct (check_proposed_refs _ _ _ _ _ _ Hc) as [Fi Fo].
  destruct (find_ref_some _ _ _ Fi) as (nI & HnI & HidI).
  destruct (find_ref_some _ _ _ Fo) as (nO & HnO & HidO).
  split; [exact Fi|]. split; [exact Fo|].
  simpl in Happ. unfold apply_create in Happ.
  destruct (node_at st1 ri) as [ni|] eqn:Eri; [|discriminate].
  destruct (node_at st1 ro) as [no0|] eqn:Ero; [|discriminate].
  rewrite HnI in Hidi. rewrite HnO in Hido. simpl in Hidi, Hido.
  injection Hidi as Hidi. injection Hido as Hido.
  destruct (nth_error (n_inputs ni) (ep_port i)) as [pi|] eqn:Epi; [|discriminate].
  set (st2 := write_node st1 ri _) in Happ.
  destruct (node_at st2 ri) as [ni1|] eqn:E2i; [|discriminate].
  destruct (node_at st2 ro) as [no|] eqn:E2o; [|discriminate].
  destruct (nth_error (n_outputs no) (ep_port o)) as [po|] eqn:Epo; [|discriminate].
  injection Happ as <-.
  assert (Hid1 : n_id ni1 = ep_nodeId i).
  { pose proof (node_id_write_input st1 ri ni (ep_port i)
                  (push_or_wrap (p_connection pi) (plain_conn (n_id no0) (ep_port o))) ri)
      as Hw.
    fold st2 in Hw. rewrite E2i, Nat.eqb_refl, Eri in Hw. simpl in Hw.
    injection Hw as ->. congruence. }
  split.
  - rewrite (port_conn_write_output _ _ _ _ _ _ _ _ _ E2o Epo). cbv [kind_eqb].
    rewrite andb_false_r. cbn [andb]. unfold st2.
    rewrite (port_conn_write_input _ _ _ _ _ _ _ _ _ Eri Epi).
    rewrite !Nat.eqb_refl. cbn [andb kind_eqb]. eexists. split; [reflexivity|].
    rewrite <- HidO, <- Hido. apply conn_mem_push.
  - rewrite (port_conn_write_output _ _ _ _ _ _ _ _ _ E2o Epo).
    rewrite !Nat.eqb_refl. cbn [andb kind_eqb]. eexists. split; [reflexivity|].
    rewrite <- Hid1. apply conn_mem_push.
Qed.

Lemma create_apply_mirrors_witness :
  let pA := mkPort (s "p") Absent in
  let st := mkEngine [mkNode (s "A") (s "t") None None [] [pA];
                      mkNode (s "B") (s "t") None None [pA] []] [0; 1] []
                     (mkTransform 0 1 1) None in
  let i := mkEndpoint (s "B") 0 KInput in
  let o := mkEndpoint (s "A") 0 KOutput in
  let cfg := mkConfig false false false None in
  exists st', apply_mutation (MCreateConnection 1 0 i o) st = Ok st' /\
  find_ref st (ep_nodeId i) = Some 1 /\ find_ref st (ep_nodeId o) = Some 0 /\
  (exists cv, port_conn st' 1 KInput (ep_port i) = Some cv /\
              conn_mem (plain_conn (ep_nodeId o) (ep_port o)) cv = true) /\
  (exists cv, port_conn st' 0 KOutput (ep_port o) = Some cv /\
              conn_mem (plain_conn (ep_nodeId i) (ep_port i)) cv = true).
Proof.
  intros pA st i o cfg.
  eexists. split; [vm_compute; reflexivity|].
  apply (create_apply_mirrors cfg st i o 1 0 st); [vm_compute; reflexivity
    | reflexivity | reflexivity | vm_compute; reflexivity].
Defined.

(* ----------------------------------------------------------------- *)
(** ** Port arity *)

Lemma port_conn_read st r n side j p :
  node_at st r = Some n ->
  nth_error (match side with KInput => n_inputs n | KOutput => n_outputs n end) j = Some p ->
  port_conn st r side j = Some (p_connection p).
Proof.
  intros Hn Hp. unfold port_conn, input_conn, output_conn.
  destruct side; simpl; rewrite Hn; simpl; rewrite Hp; reflexivity.
Qed.

Lemma port_conn_same_heap st st' r side j :
  heap st' = heap st -> port_conn st' r side j = port_conn st r side j.
Proof.
  intros H. unfold port_conn, input_conn, output_conn, node_at. rewrite H. reflexivity.
Qed.

(** A write to one port leaves every other port as it was. *)
Lemma write_input_touch st r0 n j0 p cv r side j :
  node_at st r0 = Some n -> nth_error (n_inputs n) j0 = Some p ->
  port_conn (write_node st r0 (set_input_conn n j0 cv)) r side j = port_conn st r side j \/
  (port_conn st r side j = Some (p_connection p) /\
   port_conn (write_node st r0 (set_input_conn n j0 cv)) r side j = Some cv).
Proof.
  intros Hn Hp. rewrite (port_conn_write_input _ _ _ _ _ _ _ _ _ Hn Hp).
  destruct (Nat.eqb_spec r r0) as [->|]; [|left; reflexivity].
  destruct side; simpl; [|left; reflexivity].
  destruct (Nat.eqb_spec j j0) as [->|]; [|left; reflexivity].
  right. split; [|reflexivity]. apply (port_conn_read _ _ n KInput); assumption.
Qed.

Lemma write_output_touch st r0 n j0 p cv r side j :
  node_at st r0 = Some n -> nth_error (n_outputs n) j0 = Some p ->
  port_conn (write_node st r0 (set_output_conn n j0 cv)) r side j = port_conn st r side j \/
  (port_conn st r side j = Some (p_connection p) /\
   port_conn (write_node st r0 (set_output_conn n j0 cv)) r side j = Some cv).
Proof.
  intros Hn Hp. rewrite (port_conn_write_output _ _ _ _ _ _ _ _ _ Hn Hp).
  destruct (Nat.eqb_spec r r0) as [->|]; [|left; reflexivity].
  destruct side; simpl; [left; reflexivity|].
  destruct (Nat.eqb_spec j j0) as [->|]; [|left; reflexivity].
  right. split; [|reflexivity]. apply (port_conn_read _ _ n KOutput); assumption.
Qed.

Ltac res_cases H :=
  destruct H as [H|H]; inversion H; subst; clear H.

(** [removeConnection] rewrites a port, if at all, with
    [removeFromArrayOrValue] of its former value. *)
Lemma removeConnection_touch st i o st' r side j :
  (removeConnection st i o = Ok st' \/ removeConnection st i o = Err st') ->
  port_conn st' r side j = port_conn st r side j \/
  exists v t, port_conn st r side j = Some v /\
              port_conn st' r side j = Some (removeFromArrayOrValue v t).
Proof.
  intros H. unfold removeConnection in H.
  destruct (find_ref st (ep_nodeId i)) as [ri|]; [|res_cases H; left; reflexivity].
  destruct (node_at st ri) as [ni|] eqn:Eni; [|res_cases H; left; reflexivity].
  destruct (nth_error (n_inputs ni) (ep_port i)) as [pi|] eqn:Epi;
    [|res_cases H; left; reflexivity].
  set (t1 := inl (plain_conn (ep_nodeId o) (ep_port o))) in H.
  set (st1 := write_node st ri _) in H.
  assert (H1 : port_conn st1 r side j = port_conn st r side j \/
               exists v t, port_conn st r side j = Some v /\
                           port_conn st1 r side j = Some (removeFromArrayOrValue v t)).
  { destruct (write_input_touch st ri ni (ep_port i) pi
                (removeFromArrayOrValue (p_connection pi) t1) r side j Eni Epi)
      as [E|[E1 E2]]; [left; exact E|right; eauto]. }
  destruct (find_ref st (ep_nodeId o)) as [ro|]; [|res_cases H; exact H1].
  destruct (node_at st1 ro) as [no|] eqn:Eno; [|res_cases H; exact H1].
  destruct (nth_error (n_outputs no) (ep_port o)) as [po|] eqn:Epo; [|res_cases H; exact H1].
  res_cases H.
  destruct side.
  - rewrite (port_conn_write_output _ _ _ _ _ _ _ _ _ Eno Epo).
    cbn [kind_eqb]. rewrite andb_false_r. cbn [andb]. exact H1.
  - destruct (write_output_touch st1 ro no (ep_port o) po
      (removeFromArrayOrValue (p_connection po)
         (inl (plain_conn (ep_nodeId i) (ep_port i))))
      r KOutput j Eno Epo) as [E|[E1 E2]].
    + rewrite E. exact H1.
    + right. rewrite E2. do 2 eexists. split; [|reflexivity].
      rewrite <- E1. unfold st1.
      rewrite (port_conn_write_input _ _ _ _ _ _ _ _ _ Eni Epi).
      cbn [kind_eqb]. rewrite andb_false_r. cbn [andb]. reflexivity.
Qed.

(** [updateProps] of [createConnection] rewrites a port, if at all, by
    pushing onto its array or replacing it with an array of one. *)
Lemma apply_create_touch st ri ro i o st' r side j :
  (apply_create st ri ro i o = Ok st' \/ apply_create st ri ro i o = Err st') ->
  port_conn st' r side j = port_conn st r side j \/
  exists v x, port_conn st r side j = Some v /\
              port_conn st' r side j = Some (push_or_wrap v x).
Proof.
  intros H. unfold apply_create in H.
  destruct (node_at st ri) as [ni|] eqn:Eni; [|res_cases H; left; reflexivity].
  destruct (node_at st ro) as [no0|]; [|res_cases H; left; reflexivity].
  destruct (nth_error (n_inputs ni) (ep_port i)) as [pi|] eqn:Epi;
    [|res_cases H; left; reflexivity].
  set (x1 := plain_conn (n_id no0) (ep_port o)) in H.
  set (st1 := write_node st ri _) in H.
  assert (H1 : port_conn st1 r side j = port_conn st r side j \/
               exists v x, port_conn st r side j = Some v /\
                           port_conn st1 r side j = Some (push_or_wrap v x)).
  { destruct (write_input_touch st ri ni (ep_port i) pi
                (push_or_wrap (p_connection pi) x1) r side j Eni Epi)
      as [E|[E1 E2]]; [left; exact E|right; eauto]. }
  destruct (node_at st1 ri) as [ni1|]; [|res_cases H; exact H1].
  destruct (node_at st1 ro) as [no|] eqn:Eno; [|res_cases H; exact H1].
  destruct (nth_error (n_outputs no) (ep_port o)) as [po|] eqn:Epo; [|res_cases H; exact H1].
  res_cases H.
  destruct side.
  - rewrite (port_conn_write_output _ _ _ _ _ _ _ _ _ Eno Epo).
    cbn [kind_eqb]. rewrite andb_false_r. cbn [andb]. exact H1.
  - destruct (write_output_touch st1 ro no (ep_port o) po
      (push_or_wrap (p_connection po) (plain_conn (n_id ni1) (ep_port i)))
      r KOutput j Eno Epo) as [E|[E1 E2]].
    + rewrite E. exact H1.
    + right. rewrite E2. do 2 eexists. split; [|reflexivity].
      rewrite <- E1. unfold st1.
      rewrite (port_conn_write_input _ _ _ _ _ _ _ _ _ Eni Epi).
      cbn [kind_eqb]. rewrite andb_false_r. cbn [andb]. reflexivity.
Qed.

(** [removeFromArrayOrValue] of a non-array value gives [undefined]. *)
Lemma removeFromArrayOrValue_single c t :
  removeFromArrayOrValue (Single c) t = Absent.
Proof. destruct t as [|[|]]; reflexivity. Qed.

Lemma removeFromArrayOrValue_absent t :
  removeFromArrayOrValue Absent t = Absent.
Proof. destruct t as [|[|]]; reflexivity. Qed.

(** Through the cascade of a node removal a single-valued port stays a
    single value or becomes [undefined]. *)
Lemma remove_all_single cs : forall st st' r side j c,
  (port_conn st r side j = Some (Single c) \/ port_conn st r side j = Some Absent) ->
  (remove_all st cs = Ok st' \/ remove_all st cs = Err st') ->
  port_conn st' r side j = Some (Single c) \/ port_conn st' r side j = Some Absent.
Proof.
  induction cs as [|[i o] cs IH]; intros st st' r side j c Hp H; simpl in H.
  - res_cases H. exact Hp.
  - assert (Step : forall st1, (removeConnection st i o = Ok st1 \/
                                removeConnection st i o = Err st1) ->
              port_conn st1 r side j = Some (Single c) \/
              port_conn st1 r side j = Some Absent).
    { intros st1 H1. destruct (removeConnection_touch _ _ _ _ r side j H1)
        as [E|(v & t & Hv & E)]; rewrite E; [exact Hp|].
      right. destruct Hp as [Hp|Hp]; rewrite Hp in Hv; injection Hv as <-.
      - rewrite removeFromArrayOrValue_single. reflexivity.
      - rewrite removeFromArrayOrValue_absent. reflexivity. }
    destruct (removeConnection st i o) as [st1|st1] eqn:E1.
    + apply (IH st1); [apply Step; left; reflexivity|exact H].
    + res_cases H. apply Step. right. reflexivity.
Qed.

Lemma port_conn_node st r side j v :
  port_conn st r side j = Some v -> exists n, node_at st r = Some n.
Proof.
  unfold port_conn, input_conn, output_conn.
  destruct side; simpl; destruct (node_at st r) as [n|]; simpl;
    try discriminate; eauto.
Qed.

Lemma port_conn_heap_app st st' l r side j v :
  heap st' = heap st ++ l -> port_conn st r side j = Some v ->
  port_conn st' r side j = Some v.
Proof.
  intros Hh Hv. destruct (port_conn_node _ _ _ _ _ Hv) as [n Hn].
  rewrite <- Hv. unfold port_conn, input_conn, output_conn, node_at in *.
  rewrite Hh, nth_error_app1; [reflexivity|].
  apply nth_error_Some. rewrite Hn. discriminate.
Qed.

(** Claim C3 (amended). One engine operation (the apply continuation of a
    connection creation or removal, of a node removal, a collapse change or
    a node creation) turns a port holding a single connection [c] into a
    port holding [c], [undefined], or an array of exactly one connection:
    a single-valued port holds at most one connection after one operation. *)
Theorem single_port_one_operation m st st' r side j c :
  port_conn st r side j = Some (Single c) ->
  (apply_mutation m st = Ok st' \/ apply_mutation m st = Err st') ->
  port_conn st' r side j = Some (Single c) \/ port_conn st' r side j = Some Absent \/
  exists x, port_conn st' r side j = Some (Many [x]).
Proof.
  intros Hp H. destruct m as [ri ro i o|i o|index cs|id b|proto id pos|]; simpl in H.
  - destruct (apply_create_touch _ _ _ _ _ _ r side j H) as [E|(v & x & Hv & E)].
    + left. rewrite E. exact Hp.
    + rewrite Hp in Hv. injection Hv as <-. right; right. exists x. exact E.
  - destruct (removeConnection_touch _ _ _ _ r side j H) as [E|(v & t & Hv & E)].
    + left. rewrite E. exact Hp.
    + rewrite Hp in Hv. injection Hv as <-. right; left.
      rewrite E, removeFromArrayOrValue_single. reflexivity.
  - assert (K : forall st1, (remove_all st cs = Ok st1 \/ remove_all st cs = Err st1) ->
              port_conn st1 r side j = Some (Single c) \/
              port_conn st1 r side j = Some Absent).
    { intros st1 H1. exact (remove_all_single cs st st1 r side j c (or_introl Hp) H1). }
    destruct (remove_all st cs) as [st1|st1] eqn:E1; res_cases H.
    + rewrite (port_conn_same_heap st1 (set_nodes st1 _)) by reflexivity.
      destruct (K st1 (or_introl eq_refl)) as [E|E]; [left|right; left]; exact E.
    + destruct (K st' (or_intror eq_refl)) as [E|E]; [left|right; left]; exact E.
  - left. destruct (map_get (nodesState st) id); res_cases H;
      [rewrite (port_conn_same_heap st (set_nodesState st _)) by reflexivity|]; exact Hp.
  - left. res_cases H. eapply port_conn_heap_app; [reflexivity|exact Hp].
  - left. res_cases H. exact Hp.
Qed.

(** The amended claim at a concrete port: creating the connection
    [B.inputs[0]] to [A.outputs[0]] on an engine whose [B.inputs[0]] holds
    [A.outputs[0]] as a single value. *)
Lemma single_port_one_operation_witness :
  port_conn fx_single_engine 1 KInput 0 = Some (Single (plain_conn (s "A") 0)) /\
  exists st', (apply_mutation (MCreateConnection 1 0 fx_Bin fx_Aout) fx_single_engine = Ok st'
               \/ apply_mutation (MCreateConnection 1 0 fx_Bin fx_Aout) fx_single_engine
                  = Err st') /\
  (port_conn st' 1 KInput 0 = Some (Single (plain_conn (s "A") 0)) \/
   port_conn st' 1 KInput 0 = Some Absent \/
   exists x, port_conn st' 1 KInput 0 = Some (Many [x])).
Proof.
  split; [vm_compute; reflexivity|].
  eexists. split; [left; vm_compute; reflexivity|].
  apply (single_port_one_operation (MCreateConnection 1 0 fx_Bin fx_Aout)
           fx_single_engine _ 1 KInput 0 (plain_conn (s "A") 0)).
  - vm_compute. reflexivity.
  - left. vm_compute. reflexivity.
Defined.

(** Claim C3 does not hold as stated: deleting the selected connection
    between the single-valued ports [B.inputs[0]] and [A.outputs[0]] leaves
    [undefined] there, and two later [createConnection] calls make
    [B.inputs[0]] an array holding two connections. *)
Lemma single_port_counterexample :
  let st0 := fx_single_engine in
  let st1 := outcome_state (onKeyDownDelete fx_cfg_nohook st0) in
  let st2 := outcome_state (createConnection fx_cfg_nohook st1 fx_Bin fx_Aout) in
  let st3 := outcome_state (createConnection fx_cfg_nohook st2 fx_Bin fx_Cout) in
  port_conn st0 1 KInput 0 = Some (Single (plain_conn (s "A") 0)) /\
  port_conn st1 1 KInput 0 = Some Absent /\
  port_conn st3 1 KInput 0 = Some (Many [plain_conn (s "A") 0; plain_conn (s "C") 0]) /\
  option_map conn_count (port_conn st3 1 KInput 0) = Some 2.
Proof. vm_compute. repeat split. Qed.

(* ----------------------------------------------------------------- *)
(** ** The change protocol *)






(* ----------------------------------------------------------------- *)
(** ** Node removal *)

(** Claim C5 fails: the cascade yields one removal pair per peer port, and
    [removeConnection] splices one matching entry per side, so after the
    node removal is applied [A] is gone from the node list while
    [B.inputs[0]] still references [A]. *)
Lemma node_removal_leaves_reference :
  port_conn fx_cascade_engine 1 KInput 0 =
    Some (Many [plain_conn (s "A") 0; plain_conn (s "A") 0]) /\
  node_removal fx_cascade_engine (s "A") =
    Some (0, [(fx_Bin, fx_Aout)]) /\
  exists st',
    onKeyDownDelete fx_cfg_nohook fx_cascade_engine =
      Done [EvApply (MRemoveNode 0 [(fx_Bin, fx_Aout)])] st' /\
    nodes st' = [1] /\
    port_conn st' 1 KInput 0 = Some (Many [plain_conn (s "A") 0]).
Proof. split; [|split]; [vm_compute; reflexivity..|]. eexists. vm_compute. repeat split. Qed.

(* ----------------------------------------------------------------- *)
(** ** Wheel zoom *)

(** What the formula of [Editor.onWheel] keeps fixed: the point
    [c * zoom + d], i.e. the anchor of the convention
    [model = screen * zoom + d], not of [screen = model * zoom + d]. *)
Lemma wheel_transform_keeps_inverse_anchor pt deltaY cx cy :
  let t := wheel_transform pt deltaY cx cy in
  (cx * t_zoom t + t_dx t == cx * t_zoom pt + t_dx pt)%Q /\
  (cy * t_zoom t + t_dy t == cy * t_zoom pt + t_dy pt)%Q.
Proof. simpl. split; ring. Qed.

(** Claim C6 fails: at zoom 2 with no offset, a wheel step towards the
    viewer at [(100, 100)] yields zoom 8/5 and offset (40, 40); the model
    point under [(100, 100)] moves from (50, 50) to (75/2, 75/2). *)
Lemma wheel_anchor_moves :
  let t0 := mkTransform 0 0 2 in
  let st' := outcome_state (onWheel fx_cfg_nohook
                              (set_transformation fx_single_engine t0) false (-1) 100 100) in
  let t1 := transformation st' in
  Qeq_bool (t_zoom t1) (8 # 5) = true /\
  Qeq_bool (t_dx t1) 40 = true /\ Qeq_bool (t_dy t1) 40 = true /\
  Qeq_bool (fst (model_point t0 100 100)) 50 = true /\
  Qeq_bool (fst (model_point t1 100 100)) (75 # 2) = true /\
  Qeq_bool (snd (model_point t1 100 100)) (75 # 2) = true /\
  Qeq_bool (fst (model_point t0 100 100)) (fst (model_point t1 100 100)) = false.
Proof. vm_compute. repeat split. Qed.

Lemma zoomFactor_nonzero deltaY : ~ (zoomFactor deltaY == 0)%Q.
Proof.
  unfold zoomFactor. destruct (Qlt_le_dec 0 deltaY); [discriminate|].
  destruct (Qlt_le_dec deltaY 0); discriminate.
Qed.

(** The point is kept exactly when the offset is [c * (1 - zoom)]; at zoom
    1 with no offset, as in the spec's scenario, this is the case. *)
Lemma wheel_anchor_special pt deltaY cx :
  ~ (t_zoom pt == 0)%Q -> (t_dx pt == cx * (1 - t_zoom pt))%Q ->
  (fst (model_point (wheel_transform pt deltaY cx 0) cx 0) ==
   fst (model_point pt cx 0))%Q.
Proof.
  intros Hz Hd. pose proof (zoomFactor_nonzero deltaY) as Hf.
  unfold model_point, wheel_transform; simpl. rewrite Hd.
  field. split; assumption.
Qed.

(* ----------------------------------------------------------------- *)
(** ** Edge derivation *)

(** Claim C8 fails: [B.inputs[0]] is [undefined] and [B.inputs[1]] holds
    [A.outputs[0]], mirrored on [A]; the [continue] on the undefined port
    skips [++i], so the one derived edge names input port 0 of [B]. *)
Lemma derive_input_port_shift :
  let A := fx_node "A" [] [mkPort (s "out") (Many [plain_conn (s "B") 1])] in
  let B := fx_node "B" [mkPort (s "in0") Absent;
                        mkPort (s "in1") (Many [plain_conn (s "A") 0])] [] in
  derive_connections [A; B] =
    Some [(mkEdgeEnd (s "B") 0 KInput None None, mkEdgeEnd (s "A") 0 KOutput None None)].
Proof. vm_compute. reflexivity. Qed.

(* ----------------------------------------------------------------- *)
(** ** Initial layout *)

(** Claim C9 fails: with a first node fixed at (500, 500) and a second
    node without a position, the candidate (110, 110) hits no rectangle,
    yet the unconditional [pos.y = place.top] moves it to (110, 500); the
    rule of the claim keeps it at (110, 110). *)
Lemma initial_layout_y_moved_without_hit :
  let N1 := mkNode (s "n1") (s "t") (Some (mkVec 500 500)) None [] [] in
  let N2 := mkNode (s "n2") (s "t") None None [] [] in
  let placed := [mkRect (mkVec 500 500) (mkVec 100 100)] in
  rect_hit (mkRect (mkVec 500 500) (mkVec 100 100)) base_position = false /\
  option_map (fun l => (Qeq_bool (vx (l_pos l)) 110 && Qeq_bool (vy (l_pos l)) 500)%bool)
    (map_get (initialState_layout [N1; N2]) (s "n2")) = Some true /\
  (Qeq_bool (vx (find_place_spec placed base_position)) 110 &&
   Qeq_bool (vy (find_place_spec placed base_position)) 110)%bool = true.
Proof. vm_compute. repeat split. Qed.

(* ----------------------------------------------------------------- *)
(** ** Pointer gestures *)

Lemma map_get_set_same m k v : map_get (map_set m k v) k = Some v.
Proof.
  induction m as [|[k' v'] m IH]; simpl.
  - rewrite str_eqb_refl. reflexivity.
  - destruct (str_eqb k' k) eqn:E; simpl; rewrite E; [reflexivity|exact IH].
Qed.

Lemma last_cons_default {A} (l : list A) (a d : A) : last (a :: l) d = last l a.
Proof.
  revert a d. induction l as [|b l IH]; intros a d; [reflexivity|].
  change (last (b :: l) d = last (b :: l) a). rewrite (IH b d), (IH b a). reflexivity.
Qed.

Lemma onDrag_engine ed p ed' :
  onDrag ed p = Some ed' -> ed_engine ed' = ed_engine ed.
Proof.
  unfold onDrag. destruct (currentAction ed) as [g|]; [|intros H; injection H as <-; reflexivity].
  destruct g as [lp id dx dy|lp ep|lp t]; simpl.
  - intros H. injection H as <-. reflexivity.
  - destruct (editorBoundingRect ed); [|discriminate].
    destruct (vmap_get _ _); [|discriminate].
    destruct (map_get _ _); [|discriminate]. simpl.
    destruct (currentAction ed); intros H; injection H as <-; reflexivity.
  - intros H. injection H as <-. reflexivity.
Qed.

Lemma onDrag_all_engine ps : forall ed ed',
  onDrag_all ed ps = Some ed' -> ed_engine ed' = ed_engine ed.
Proof.
  induction ps as [|p ps IH]; simpl; intros ed ed' H.
  - injection H as <-. reflexivity.
  - destruct (onDrag ed p) as [ed1|] eqn:E; [|discriminate].
    rewrite (IH _ _ H). exact (onDrag_engine _ _ _ E).
Qed.

(** Moves during a node drag accumulate the cursor travel. *)
Lemma onDrag_all_node ps : forall ed lp id dx dy,
  currentAction ed = Some (GNode lp id dx dy) ->
  exists ed' dx' dy',
    onDrag_all ed ps = Some ed' /\ ed_engine ed' = ed_engine ed /\
    currentAction ed' = Some (GNode (last ps lp) id dx' dy') /\
    (dx' == dx + (vx (last ps lp) - vx lp))%Q /\ (dy' == dy + (vy (last ps lp) - vy lp))%Q.
Proof.
  induction ps as [|p ps IH]; intros ed lp id dx dy Hc.
  - exists ed, dx, dy. simpl. repeat split; [exact Hc|ring|ring].
  - rewrite (last_cons_default ps p lp).
    simpl onDrag_all. unfold onDrag at 1. rewrite Hc. simpl.
    set (ed1 := set_current (set_current ed _) _).
    destruct (IH ed1 p id (dx + (vx p - vx lp)) (dy + (vy p - vy lp)))%Q
      as (ed' & dx' & dy' & H1 & H2 & H3 & H4 & H5); [reflexivity|].
    exists ed', dx', dy'. repeat split.
    + exact H1.
    + rewrite H2. reflexivity.
    + exact H3.
    + rewrite H4. ring.
    + rewrite H5. ring.
Qed.

(** Moves during a pan shift the transformation by the cursor travel. *)
Lemma onDrag_all_translate ps : forall ed lp t,
  currentAction ed = Some (GTranslate lp t) ->
  exists ed' t',
    onDrag_all ed ps = Some ed' /\ ed_engine ed' = ed_engine ed /\
    currentAction ed' = Some (GTranslate (last ps lp) t') /\
    (t_dx t' == t_dx t + (vx (last ps lp) - vx lp))%Q /\
    (t_dy t' == t_dy t + (vy (last ps lp) - vy lp))%Q /\ t_zoom t' = t_zoom t.
Proof.
  induction ps as [|p ps IH]; intros ed lp t Hc.
  - exists ed, t. simpl. repeat split; [exact Hc|ring|ring].
  - rewrite (last_cons_default ps p lp).
    simpl onDrag_all. unfold onDrag at 1. rewrite Hc. simpl.
    set (ed1 := set_current (set_current ed _) _).
    destruct (IH ed1 p (mkTransform (t_dx t + (vx p - vx lp)) (t_dy t + (vy p - vy lp))
                                    (t_zoom t))%Q)
      as (ed' & t' & H1 & H2 & H3 & H4 & H5 & H6); [reflexivity|].
    exists ed', t'. repeat split.
    + exact H1.
    + rewrite H2. reflexivity.
    + exact H3.
    + rewrite H4. simpl. ring.
    + rewrite H5. simpl. ring.
    + rewrite H6. reflexivity.
Qed.

(** Moves during a connection drag keep the origin endpoint. *)
Lemma onDrag_all_connection ps : forall ed lp ep ed',
  currentAction ed = Some (GConnection lp ep) ->
  onDrag_all ed ps = Some ed' ->
  exists lp', currentAction ed' = Some (GConnection lp' ep).
Proof.
  induction ps as [|p ps IH]; intros ed lp ep ed' Hc H; simpl in H.
  - injection H as <-. eauto.
  - destruct (onDrag ed p) as [ed1|] eqn:E; [|discriminate].
    apply (IH ed1 p ep ed'); [|exact H].
    unfold onDrag in E. rewrite Hc in E. simpl in E.
    destruct (editorBoundingRect ed); [|discriminate].
    destruct (vmap_get _ _); [|discriminate].
    destruct (map_get _ _); [|discriminate]. simpl in E.
    rewrite Hc in E. injection E as <-. reflexivity.
Qed.

(** A node drag with the primary button commits, at pointer-up, the
    whole cursor travel from the press to the last move to the node's
    layout entry, resets the gesture, and offers the hook (if any) only a
    no-op continuation. *)
Theorem node_drag_commits_travel cfg ed id p0 ps ns :
  map_get (nodesState (ed_engine ed)) id = Some ns ->
  exists ed2 evs ed3 ns',
    onDrag_all (onDragStarted ed id ButtonLeft p0) ps = Some ed2 /\
    onDragEnded cfg ed2 = UDone evs ed3 /\
    map_get (nodesState (ed_engine ed3)) id = Some ns' /\
    (vx (l_pos ns') == vx (l_pos ns) + (vx (last ps p0) - vx p0))%Q /\
    (vy (l_pos ns') == vy (l_pos ns) + (vy (last ps p0) - vy p0))%Q /\
    l_size ns' = l_size ns /\ l_collapsed ns' = l_collapsed ns /\
    currentAction ed3 = None /\
    (forall e, In e evs -> exists a, e = EvHook a MNoop).
Proof.
  intros Hns.
  destruct (onDrag_all_node ps (onDragStarted ed id ButtonLeft p0) p0 id 0 0 eq_refl)
    as (ed2 & dx' & dy' & H1 & H2 & H3 & H4 & H5).
  exists ed2. unfold onDragEnded. rewrite H3. unfold onDragEndedNode.
  rewrite H2. simpl ed_engine. rewrite Hns.
  do 3 eexists. split; [exact H1|]. split; [reflexivity|].
  simpl. rewrite map_get_set_same. split; [reflexivity|].
  simpl. repeat split.
  - rewrite H4. ring.
  - rewrite H5. ring.
  - intros e He. destruct (onChanged cfg); simpl in He;
      [destruct He as [<-|[]]; eauto|contradiction].
Qed.

Lemma node_drag_commits_travel_witness :
  map_get (nodesState (ed_engine fx_editor)) (s "A") = Some fx_layout_A /\
  exists ed2 evs ed3 ns',
    onDrag_all (onDragStarted fx_editor (s "A") ButtonLeft (mkVec 5 5))
               [mkVec 7 9; mkVec 20 30] = Some ed2 /\
    onDragEnded fx_cfg_hook ed2 = UDone evs ed3 /\
    map_get (nodesState (ed_engine ed3)) (s "A") = Some ns' /\
    (vx (l_pos ns') == vx (l_pos fx_layout_A)
                       + (vx (last [mkVec 7 9; mkVec 20 30] (mkVec 5 5)) - 5))%Q /\
    (vy (l_pos ns') == vy (l_pos fx_layout_A)
                       + (vy (last [mkVec 7 9; mkVec 20 30] (mkVec 5 5)) - 5))%Q /\
    l_size ns' = l_size fx_layout_A /\ l_collapsed ns' = l_collapsed fx_layout_A /\
    currentAction ed3 = None /\
    (forall e, In e evs -> exists a, e = EvHook a MNoop).
Proof.
  split; [reflexivity|].
  apply (node_drag_commits_travel fx_cfg_hook fx_editor (s "A") (mkVec 5 5)
           [mkVec 7 9; mkVec 20 30] fx_layout_A).
  reflexivity.
Defined.

Lemma onMouseGlobalDown_translate ed b p0 onSvg :
  b = ButtonMiddle \/ (b = ButtonLeft /\ onSvg = true) ->
  currentAction (onMouseGlobalDown ed b p0 onSvg) =
    Some (GTranslate p0 (transformation (ed_engine ed))).
Proof. intros [->|[-> ->]]; reflexivity. Qed.

Lemma Qeq_bool_false_neg a b : negb (Qeq_bool a b) = false -> (a == b)%Q.
Proof. intros H. apply Qeq_bool_iff. destruct (Qeq_bool a b); [reflexivity|discriminate]. Qed.

(** A pan (middle button anywhere, or primary button on the canvas
    background) ends with the transformation of the press shifted by the
    whole cursor travel, zoom unchanged, whatever the engine state became
    in between: a wheel zoom during the pan is overwritten. *)
Theorem pan_commits_travel cfg ed b p0 onSvg ps st' :
  b = ButtonMiddle \/ (b = ButtonLeft /\ onSvg = true) ->
  exists ed2 evs ed3,
    onDrag_all (onMouseGlobalDown ed b p0 onSvg) ps = Some ed2 /\
    onDragEnded cfg (set_engine ed2 st') = UDone evs ed3 /\
    (t_dx (transformation (ed_engine ed3)) ==
       t_dx (transformation (ed_engine ed)) + (vx (last ps p0) - vx p0))%Q /\
    (t_dy (transformation (ed_engine ed3)) ==
       t_dy (transformation (ed_engine ed)) + (vy (last ps p0) - vy p0))%Q /\
    (t_zoom (transformation (ed_engine ed3)) == t_zoom (transformation (ed_engine ed)))%Q /\
    currentAction ed3 = None.
Proof.
  intros Hb.
  destruct (onDrag_all_translate ps (onMouseGlobalDown ed b p0 onSvg) p0
              (transformation (ed_engine ed)) (onMouseGlobalDown_translate _ _ _ _ Hb))
    as (ed2 & t' & H1 & _ & H3 & H4 & H5 & H6).
  exists ed2. unfold onDragEnded. simpl currentAction. rewrite H3.
  unfold onDragEndedTranslate. simpl ed_engine.
  destruct (negb (Qeq_bool (t_dx t') (t_dx (transformation st'))) ||
            negb (Qeq_bool (t_dy t') (t_dy (transformation st'))) ||
            negb (Qeq_bool (t_zoom t') (t_zoom (transformation st')))) eqn:E.
  - do 2 eexists. split; [exact H1|]. split; [reflexivity|].
    simpl. repeat split; [exact H4|exact H5|rewrite H6; reflexivity].
  - apply orb_false_iff in E as [E E3]. apply orb_false_iff in E as [E1 E2].
    apply Qeq_bool_false_neg in E1, E2, E3.
    do 2 eexists. split; [exact H1|]. split; [reflexivity|].
    simpl. repeat split.
    + rewrite <- E1. exact H4.
    + rewrite <- E2. exact H5.
    + rewrite <- E3, H6. reflexivity.
Qed.

Lemma pan_commits_travel_witness :
  (ButtonLeft = ButtonMiddle \/ (ButtonLeft = ButtonLeft /\ true = true)) /\
  exists ed2 evs ed3,
    onDrag_all (onMouseGlobalDown fx_editor ButtonLeft (mkVec 0 0) true)
               [mkVec 3 4] = Some ed2 /\
    onDragEnded fx_cfg_nohook (set_engine ed2 fx_single_engine) = UDone evs ed3 /\
    (t_dx (transformation (ed_engine ed3)) ==
       t_dx (transformation (ed_engine fx_editor)) + (vx (last [mkVec 3 4] (mkVec 0 0)) - 0))%Q /\
    (t_dy (transformation (ed_engine ed3)) ==
       t_dy (transformation (ed_engine fx_editor)) + (vy (last [mkVec 3 4] (mkVec 0 0)) - 0))%Q /\
    (t_zoom (transformation (ed_engine ed3)) ==
       t_zoom (transformation (ed_engine fx_editor)))%Q /\
    currentAction ed3 = None.
Proof.
  split; [right; split; reflexivity|].
  apply (pan_commits_travel fx_cfg_nohook fx_editor ButtonLeft (mkVec 0 0) true
           [mkVec 3 4] fx_single_engine).
  right. split; reflexivity.
Defined.

(** A connection drag started on port [a] and released over port [b],
    whatever moves happened in between, calls [createConnection] with the
    input endpoint first; ports of the same kind make it a no-op. *)
Theorem connection_drag_orders_endpoints cfg ed a b p0 ps ed2 :
  onDrag_all (onCreateConnectionStarted ed a p0) ps = Some ed2 ->
  (ep_kind a = KInput -> ep_kind b = KOutput ->
     onCreateConnectionEnded cfg ed2 b = createConnection cfg (ed_engine ed) a b) /\
  (ep_kind a = KOutput -> ep_kind b = KInput ->
     onCreateConnectionEnded cfg ed2 b = createConnection cfg (ed_engine ed) b a) /\
  (ep_kind a = ep_kind b -> onCreateConnectionEnded cfg ed2 b = Done [] (ed_engine ed)).
Proof.
  intros H.
  destruct (onDrag_all_connection ps (onCreateConnectionStarted ed a p0) p0 a ed2 eq_refl H)
    as [lp' Hc].
  pose proof (onDrag_all_engine _ _ _ H) as He. simpl in He.
  unfold onCreateConnectionEnded. rewrite Hc, He.
  split; [|split].
  - intros -> _. reflexivity.
  - intros -> _. reflexivity.
  - intros Hk. unfold createConnection, createConnection_check.
    destruct (ep_kind a) eqn:Ea; rewrite <- Hk; simpl; rewrite ?Ea; reflexivity.
Qed.

Lemma connection_drag_orders_endpoints_witness :
  exists ed2,
    onDrag_all (onCreateConnectionStarted fx_editor fx_Aout (mkVec 0 0)) [] = Some ed2 /\
    ((ep_kind fx_Aout = KInput -> ep_kind fx_Bin = KOutput ->
        onCreateConnectionEnded fx_cfg_nohook ed2 fx_Bin =
        createConnection fx_cfg_nohook (ed_engine fx_editor) fx_Aout fx_Bin) /\
     (ep_kind fx_Aout = KOutput -> ep_kind fx_Bin = KInput ->
        onCreateConnectionEnded fx_cfg_nohook ed2 fx_Bin =
        createConnection fx_cfg_nohook (ed_engine fx_editor) fx_Bin fx_Aout) /\
     (ep_kind fx_Aout = ep_kind fx_Bin ->
        onCreateConnectionEnded fx_cfg_nohook ed2 fx_Bin = Done [] (ed_engine fx_editor))).
Proof.
  eexists. split; [reflexivity|].
  apply (connection_drag_orders_endpoints fx_cfg_nohook fx_editor fx_Aout fx_Bin
           (mkVec 0 0) []).
  reflexivity.
Defined.

(* ----------------------------------------------------------------- *)
(** ** The Delete key *)

(** Whenever the Delete key is handled without an exception, the
    selection is cleared; with a hook and no [demoMode] nothing else of
    the engine state changes. *)
Theorem delete_clears_selection cfg st evs st' :
  onKeyDownDelete cfg st = Done evs st' ->
  selection st' = None /\
  (onChanged cfg = true -> demoMode cfg = false -> st' = set_selection st None).
Proof.
  assert (D : forall a m, onChanged cfg = true -> demoMode cfg = false ->
                clear_selection (dispatch cfg a m st) = Done evs st' ->
                st' = set_selection st None).
  { intros a m Hc Hd. unfold dispatch. rewrite Hc, Hd. simpl.
    intros H. injection H as _ <-. reflexivity. }
  assert (S : forall o, clear_selection o = Done evs st' -> selection st' = None).
  { intros [e0 s0|e0 s0] H; simpl in H; [|discriminate].
    injection H as _ <-. reflexivity. }
  unfold onKeyDownDelete. destruct (selection st) as [[[] id]|] eqn:Es.
  - destruct (node_removal st id) as [[index cs]|]; [|discriminate].
    intros H. split; [exact (S _ H)|]. intros Hc Hd. exact (D _ _ Hc Hd H).
  - destruct (extractConnectionFromId id) as [[i o]|]; [|discriminate].
    intros H. split; [exact (S _ H)|]. intros Hc Hd. exact (D _ _ Hc Hd H).
  - intros H. injection H as _ <-. split; [exact Es|].
    intros _ _. destruct st; simpl in *; subst; reflexivity.
Qed.

Lemma delete_clears_selection_witness :
  exists evs st',
    onKeyDownDelete fx_cfg_hook fx_single_engine = Done evs st' /\
    selection st' = None /\
    (onChanged fx_cfg_hook = true -> demoMode fx_cfg_hook = false ->
     st' = set_selection fx_single_engine None).
Proof.
  do 2 eexists. split; [vm_compute; reflexivity|].
  eapply (delete_clears_selection fx_cfg_hook fx_single_engine). vm_compute. reflexivity.
Defined.

(* ----------------------------------------------------------------- *)
(** ** Collapsing *)

Lemma map_set_set m k v w : map_set (map_set m k v) k w = map_set m k w.
Proof.
  induction m as [|[k' v'] m IH]; simpl.
  - rewrite str_eqb_refl. reflexivity.
  - destruct (str_eqb k' k) eqn:E; simpl; rewrite E; [reflexivity|rewrite IH; reflexivity].
Qed.

Lemma map_set_get_same m k v : map_get m k = Some v -> map_set m k v = m.
Proof.
  induction m as [|[k' v'] m IH]; simpl; [discriminate|].
  destruct (str_eqb k' k); [intros H; injection H as ->; reflexivity|].
  intros H. rewrite (IH H). reflexivity.
Qed.

(** When the engine applies collapse changes itself (no hook, or
    [demoMode]), toggling a node twice gives back the engine state it
    started from. *)
Theorem toggle_twice_restores cfg st id ns :
  onChanged cfg = false \/ demoMode cfg = true ->
  map_get (nodesState st) id = Some ns ->
  outcome_state (toggleExpandNode cfg (outcome_state (toggleExpandNode cfg st id)) id) = st.
Proof.
  intros Hc Hns.
  assert (Hd : negb (onChanged cfg) || demoMode cfg = true)
    by (destruct Hc as [-> | ->]; [reflexivity|apply orb_true_r]).
  assert (E1 : outcome_state (toggleExpandNode cfg st id) =
               set_nodesState st (map_set (nodesState st) id
                 (mkLayout (l_pos ns) (l_size ns) (negb (l_collapsed ns))))).
  { unfold toggleExpandNode. rewrite Hns. unfold dispatch. rewrite Hd. simpl.
    rewrite Hns. reflexivity. }
  rewrite E1. unfold toggleExpandNode. simpl nodesState. rewrite map_get_set_same.
  unfold dispatch. rewrite Hd. simpl. rewrite map_get_set_same. simpl.
  rewrite map_set_set, negb_involutive.
  replace (mkLayout (l_pos ns) (l_size ns) (l_collapsed ns)) with ns
    by (destruct ns; reflexivity).
  rewrite (map_set_get_same _ _ _ Hns). destruct st; reflexivity.
Qed.

Lemma toggle_twice_restores_witness :
  (onChanged fx_cfg_nohook = false \/ demoMode fx_cfg_nohook = true) /\
  map_get (nodesState (ed_engine fx_editor)) (s "A") = Some fx_layout_A /\
  outcome_state (toggleExpandNode fx_cfg_nohook
                   (outcome_state (toggleExpandNode fx_cfg_nohook (ed_engine fx_editor) (s "A")))
                   (s "A")) = ed_engine fx_editor.
Proof.
  split; [left; reflexivity|]. split; [reflexivity|].
  apply (toggle_twice_restores fx_cfg_nohook (ed_engine fx_editor) (s "A") fx_layout_A);
    [left; reflexivity|reflexivity].
Defined.

(* ----------------------------------------------------------------- *)
(** ** Removing a connection reference *)

Lemma find_index_first {A} (f : A -> bool) pre x post :
  forallb (fun y => negb (f y)) pre = true -> f x = true ->
  find_index f (pre ++ x :: post) = Some (length pre).
Proof.
  intros Hp Hx. induction pre as [|y pre IH]; simpl in *.
  - rewrite Hx. reflexivity.
  - apply andb_true_iff in Hp as [Hy Hp]. destruct (f y); [discriminate|].
    rewrite (IH Hp). reflexivity.
Qed.

Lemma find_index_none {A} (f : A -> bool) l :
  forallb (fun y => negb (f y)) l = true -> find_index f l = None.
Proof.
  induction l as [|y l IH]; simpl; [reflexivity|].
  intros H. apply andb_true_iff in H as [Hy H]. destruct (f y); [discriminate|].
  rewrite (IH H). reflexivity.
Qed.

Lemma remove_at_middle {A} (pre post : list A) x :
  remove_at (length pre) (pre ++ x :: post) = pre ++ post.
Proof. induction pre as [|y pre IH]; simpl; [reflexivity|]. rewrite IH. reflexivity. Qed.

(** [removeFromArrayOrValue] on an array deletes the first entry with the
    same node id and port, keeping the others in order, and leaves the
    array as it is when no entry matches; on a non-array value it returns
    [undefined]. Given an array of connections, only its first element is
    looked for, and an empty one clears the value to [undefined]. *)
Theorem removeFromArrayOrValue_behaviour :
  (forall pre x post it,
     forallb (fun y => negb (compareConnections it y)) pre = true ->
     compareConnections it x = true ->
     removeFromArrayOrValue (Many (pre ++ x :: post)) (inl it) = Many (pre ++ post)) /\
  (forall vs it,
     forallb (fun y => negb (compareConnections it y)) vs = true ->
     removeFromArrayOrValue (Many vs) (inl it) = Many vs) /\
  (forall v t, (forall vs, v <> Many vs) -> removeFromArrayOrValue v t = Absent) /\
  (forall v it rest,
     removeFromArrayOrValue v (inr (it :: rest)) = removeFromArrayOrValue v (inl it)) /\
  (forall vs, removeFromArrayOrValue (Many vs) (inr []) = Absent).
Proof.
  split; [|split; [|split; [|split]]].
  - intros pre x post it Hp Hx. simpl. rewrite (find_index_first _ _ _ _ Hp Hx).
    rewrite remove_at_middle. reflexivity.
  - intros vs it H. simpl. rewrite (find_index_none _ _ H). reflexivity.
  - intros [|c|vs] t H; [apply removeFromArrayOrValue_absent|
                         apply removeFromArrayOrValue_single|].
    exfalso. exact (H vs eq_refl).
  - intros [|c|vs] it rest; reflexivity.
  - reflexivity.
Qed.

Lemma removeFromArrayOrValue_behaviour_witness :
  forallb (fun y => negb (compareConnections (plain_conn (s "A") 0) y))
          [plain_conn (s "A") 1] = true /\
  compareConnections (plain_conn (s "A") 0) (mkConn (s "A") 0 None (Some (s "n"))) = true /\
  removeFromArrayOrValue
    (Many ([plain_conn (s "A") 1] ++ mkConn (s "A") 0 None (Some (s "n")) :: [plain_conn (s "A") 0]))
    (inl (plain_conn (s "A") 0)) =
  Many ([plain_conn (s "A") 1] ++ [plain_conn (s "A") 0]).
Proof.
  split; [reflexivity|]. split; [reflexivity|].
  destruct removeFromArrayOrValue_behaviour as [H _].
  apply H; reflexivity.
Defined.

(* ----------------------------------------------------------------- *)
(** ** Creating, then removing, a connection *)

Lemma port_conn_inv st r side j v :
  port_conn st r side j = Some v ->
  exists n p, node_at st r = Some n /\
    nth_error (match side with KInput => n_inputs n | KOutput => n_outputs n end) j = Some p /\
    p_connection p = v.
Proof.
  unfold port_conn, input_conn, output_conn.
  destruct side; simpl; destruct (node_at st r) as [n|]; try discriminate;
    simpl; destruct (nth_error _ j) as [p|] eqn:Ep; try discriminate;
    intros H; injection H as <-; exists n, p; auto.
Qed.

Lemma find_ref_same_ids st st' id :
  nodes st' = nodes st ->
  (forall r, option_map n_id (node_at st' r) = option_map n_id (node_at st r)) ->
  find_ref st' id = find_ref st id.
Proof.
  intros Hn Hi. unfold find_ref. rewrite Hn. clear Hn.
  induction (nodes st) as [|r l IH]; [reflexivity|].
  simpl. rewrite IH. specialize (Hi r).
  destruct (node_at st' r), (node_at st r); simpl in Hi; try discriminate; [|reflexivity].
  injection Hi as ->. reflexivity.
Qed.

Lemma node_ids_write st r0 n :
  option_map n_id (node_at st r0) = Some (n_id n) ->
  forall r, option_map n_id (node_at (write_node st r0 n) r) = option_map n_id (node_at st r).
Proof.
  intros H r. rewrite node_at_write. destruct (Nat.eqb_spec r r0) as [->|]; [|reflexivity].
  destruct (node_at st r0); simpl in *; congruence.
Qed.

Lemma n_id_set_input n j cv : n_id (set_input_conn n j cv) = n_id n.
Proof. unfold set_input_conn. destruct (nth_error _ _); reflexivity. Qed.

Lemma n_id_set_output n j cv : n_id (set_output_conn n j cv) = n_id n.
Proof. unfold set_output_conn. destruct (nth_error _ _); reflexivity. Qed.

(** The continuation of [ConnectionCreated], port by port. *)
Lemma apply_create_ports st ri ro i o ni no0 st1 :
  node_at st ri = Some ni -> n_id ni = ep_nodeId i ->
  node_at st ro = Some no0 -> n_id no0 = ep_nodeId o ->
  apply_create st ri ro i o = Ok st1 ->
  nodes st1 = nodes st /\
  (forall r, option_map n_id (node_at st1 r) = option_map n_id (node_at st r)) /\
  (forall r side j, port_conn st1 r side j =
     if Nat.eqb r ri && kind_eqb side KInput && Nat.eqb j (ep_port i)
     then option_map (fun v => push_or_wrap v (plain_conn (ep_nodeId o) (ep_port o)))
                     (port_conn st r side j)
     else if Nat.eqb r ro && kind_eqb side KOutput && Nat.eqb j (ep_port o)
     then option_map (fun v => push_or_wrap v (plain_conn (ep_nodeId i) (ep_port i)))
                     (port_conn st r side j)
     else port_conn st r side j).
Proof.
  intros Hi Hidi Ho Hido H. unfold apply_create in H. rewrite Hi, Ho in H.
  destruct (nth_error (n_inputs ni) (ep_port i)) as [pi|] eqn:Epi; [|discriminate].
  set (cvi := push_or_wrap _ _) in H.
  set (st2 := write_node st ri (set_input_conn ni (ep_port i) cvi)) in H.
  destruct (node_at st2 ri) as [ni1|] eqn:E2i; [|discriminate].
  destruct (node_at st2 ro) as [no|] eqn:E2o; [|discriminate].
  destruct (nth_error (n_outputs no) (ep_port o)) as [po|] eqn:Epo; [|discriminate].
  injection H as <-.
  assert (Ids2 : forall r, option_map n_id (node_at st2 r) = option_map n_id (node_at st r)).
  { apply node_ids_write. rewrite Hi, n_id_set_input. reflexivity. }
  assert (Hid1 : n_id ni1 = ep_nodeId i).
  { specialize (Ids2 ri). rewrite E2i, Hi in Ids2. simpl in Ids2. congruence. }
  assert (Pi : port_conn st ri KInput (ep_port i) = Some (p_connection pi))
    by exact (port_conn_read st ri ni KInput _ pi Hi Epi).
  assert (Po : port_conn st ro KOutput (ep_port o) = Some (p_connection po)).
  { rewrite <- (port_conn_read st2 ro no KOutput _ po E2o Epo). unfold st2.
    rewrite (port_conn_write_input _ _ _ _ _ _ _ _ _ Hi Epi).
    cbn [kind_eqb]. rewrite andb_false_r. reflexivity. }
  split; [reflexivity|]. split.
  - intros r. rewrite node_ids_write; [apply Ids2|].
    rewrite E2o, n_id_set_output. reflexivity.
  - intros r side j.
    rewrite (port_conn_write_output _ _ _ _ _ _ _ _ _ E2o Epo). unfold st2.
    rewrite (port_conn_write_input _ _ _ _ _ _ _ _ _ Hi Epi).
    destruct side; cbn [kind_eqb]; rewrite ?andb_false_r, ?andb_true_r; cbn [andb].
    + destruct (Nat.eqb r ri) eqn:E1, (Nat.eqb j (ep_port i)) eqn:E2; cbn [andb];
        try reflexivity.
      apply Nat.eqb_eq in E1, E2. subst r j.
      rewrite Pi. unfold cvi. simpl. rewrite Hido. reflexivity.
    + destruct (Nat.eqb r ro) eqn:E1, (Nat.eqb j (ep_port o)) eqn:E2; cbn [andb];
        try reflexivity.
      apply Nat.eqb_eq in E1, E2. subst r j.
      rewrite Po. simpl. rewrite Hid1. reflexivity.
Qed.

(** [removeConnection], port by port, when both ports exist. *)
Lemma removeConnection_ports st i o ri ro vi vo :
  find_ref st (ep_nodeId i) = Some ri -> find_ref st (ep_nodeId o) = Some ro ->
  port_conn st ri KInput (ep_port i) = Some vi ->
  port_conn st ro KOutput (ep_port o) = Some vo ->
  exists st', removeConnection st i o = Ok st' /\
  nodes st' = nodes st /\
  (forall r side j, port_conn st' r side j =
     if Nat.eqb r ri && kind_eqb side KInput && Nat.eqb j (ep_port i)
     then Some (removeFromArrayOrValue vi (inl (plain_conn (ep_nodeId o) (ep_port o))))
     else if Nat.eqb r ro && kind_eqb side KOutput && Nat.eqb j (ep_port o)
     then Some (removeFromArrayOrValue vo (inl (plain_conn (ep_nodeId i) (ep_port i))))
     else port_conn st r side j).
Proof.
  intros Fi Fo Pi Po.
  destruct (port_conn_inv _ _ _ _ _ Pi) as (ni & pi & Hni & Epi & <-).
  unfold removeConnection. cbv zeta. rewrite Fi, Hni, Epi, Fo.
  set (st1 := write_node st ri (set_input_conn ni (ep_port i) _)).
  assert (Po1 : port_conn st1 ro KOutput (ep_port o) = Some vo).
  { unfold st1. rewrite (port_conn_write_input _ _ _ _ _ _ _ _ _ Hni Epi).
    cbn [kind_eqb]. rewrite andb_false_r. exact Po. }
  destruct (port_conn_inv _ _ _ _ _ Po1) as (no & po & Hno & Epo & Ec).
  rewrite Hno, Epo. eexists. split; [reflexivity|]. split; [reflexivity|].
  intros r side j. rewrite (port_conn_write_output _ _ _ _ _ _ _ _ _ Hno Epo).
  unfold st1. rewrite (port_conn_write_input _ _ _ _ _ _ _ _ _ Hni Epi), Ec.
  destruct side; cbn [kind_eqb]; rewrite ?andb_false_r, ?andb_true_r; reflexivity.
Qed.

Lemma remove_pushed v c c' :
  compareConnections c c' = true ->
  (forall vs, v = Many vs -> forallb (fun y => negb (compareConnections c y)) vs = true) ->
  removeFromArrayOrValue (push_or_wrap v c') (inl c) =
  match v with Many vs => Many vs | _ => Many [] end.
Proof.
  intros Hc Hv. destruct v as [|x|vs]; simpl; try (rewrite Hc; reflexivity).
  rewrite (find_index_first _ vs c' [] (Hv vs eq_refl) Hc), remove_at_middle, app_nil_r.
  reflexivity.
Qed.

Lemma compareConnections_plain id p : compareConnections (plain_conn id p) (plain_conn id p) = true.
Proof. unfold compareConnections. simpl. rewrite Nat.eqb_refl, str_eqb_refl. reflexivity. Qed.

(** Running the continuation of a proposed [ConnectionCreated] and then
    [removeConnection] on the same two endpoints gives both ports back their
    former arrays, provided neither already held an entry for the other
    endpoint; a port that was [undefined] is left as an empty array. No
    other port changes, and [nodes] is untouched. *)
Theorem create_then_remove_restores cfg st i o ri ro st1 vi vo :
  createConnection_check cfg st i o = CCProposed ri ro ->
  port_conn st ri KInput (ep_port i) = Some vi ->
  port_conn st ro KOutput (ep_port o) = Some vo ->
  (forall vs, vi = Many vs ->
     forallb (fun y => negb (compareConnections (plain_conn (ep_nodeId o) (ep_port o)) y)) vs
     = true) ->
  (forall vs, vo = Many vs ->
     forallb (fun y => negb (compareConnections (plain_conn (ep_nodeId i) (ep_port i)) y)) vs
     = true) ->
  apply_mutation (MCreateConnection ri ro i o) st = Ok st1 ->
  exists st2, removeConnection st1 i o = Ok st2 /\
    nodes st2 = nodes st /\
    port_conn st2 ri KInput (ep_port i) =
      Some (match vi with Many vs => Many vs | _ => Many [] end) /\
    port_conn st2 ro KOutput (ep_port o) =
      Some (match vo with Many vs => Many vs | _ => Many [] end) /\
    (forall r side j, (r, side, j) <> (ri, KInput, ep_port i) ->
       (r, side, j) <> (ro, KOutput, ep_port o) ->
       port_conn st2 r side j = port_conn st r side j).
Proof.
  intros Hc Pi Po Ni No Happ.
  destruct (check_proposed_refs _ _ _ _ _ _ Hc) as [Fi Fo].
  destruct (find_ref_some _ _ _ Fi) as (nI & HnI & HidI).
  destruct (find_ref_some _ _ _ Fo) as (nO & HnO & HidO).
  simpl in Happ.
  destruct (apply_create_ports st ri ro i o nI nO st1 HnI HidI HnO HidO Happ)
    as (Hn1 & Hid1 & Hp1).
  assert (Fi1 : find_ref st1 (ep_nodeId i) = Some ri)
    by (rewrite (find_ref_same_ids st st1); auto).
  assert (Fo1 : find_ref st1 (ep_nodeId o) = Some ro)
    by (rewrite (find_ref_same_ids st st1); auto).
  assert (Pi1 : port_conn st1 ri KInput (ep_port i) =
                Some (push_or_wrap vi (plain_conn (ep_nodeId o) (ep_port o)))).
  { rewrite Hp1, !Nat.eqb_refl. cbn [andb kind_eqb]. rewrite Pi. reflexivity. }
  assert (Po1 : port_conn st1 ro KOutput (ep_port o) =
                Some (push_or_wrap vo (plain_conn (ep_nodeId i) (ep_port i)))).
  { rewrite Hp1. cbn [kind_eqb]. rewrite andb_false_r, !Nat.eqb_refl. cbn [andb].
    rewrite Po. reflexivity. }
  destruct (removeConnection_ports st1 i o ri ro _ _ Fi1 Fo1 Pi1 Po1)
    as (st2 & Hr & Hn2 & Hp2).
  exists st2. split; [exact Hr|]. split; [congruence|]. split; [|split].
  - rewrite Hp2, !Nat.eqb_refl. cbn [andb kind_eqb]. f_equal.
    apply remove_pushed; [apply compareConnections_plain|exact Ni].
  - rewrite Hp2. cbn [kind_eqb]. rewrite andb_false_r, !Nat.eqb_refl. cbn [andb].
    f_equal. apply remove_pushed; [apply compareConnections_plain|exact No].
  - intros r side j N1 N2. rewrite Hp2, Hp1.
    destruct side; cbn [kind_eqb]; rewrite ?andb_false_r, ?andb_true_r; cbn [andb];
      [destruct (Nat.eqb r ri) eqn:E1, (Nat.eqb j (ep_port i)) eqn:E2
      |destruct (Nat.eqb r ro) eqn:E1, (Nat.eqb j (ep_port o)) eqn:E2];
      cbn [andb]; try reflexivity;
      apply Nat.eqb_eq in E1, E2; subst; contradiction.
Qed.

Lemma create_then_remove_restores_witness :
  let pA := mkPort (s "p") Absent in
  let st := mkEngine [mkNode (s "A") (s "t") None None [pA] [pA];
                      mkNode (s "B") (s "t") None None [pA] [pA]] [0; 1] []
                     (mkTransform 0 0 1) None in
  let i := mkEndpoint (s "B") 0 KInput in
  let o := mkEndpoint (s "A") 0 KOutput in
  match apply_mutation (MCreateConnection 1 0 i o) st with
  | Ok st1 => exists st2, removeConnection st1 i o = Ok st2 /\
                port_conn st2 1 KInput 0 = Some (Many []) /\
                port_conn st2 0 KOutput 0 = Some (Many [])
  | Err _ => False
  end.
Proof.
  intros pA st i o. destruct (apply_mutation (MCreateConnection 1 0 i o) st) as [st1|st1] eqn:E.
  - destruct (create_then_remove_restores fx_cfg_nohook st i o 1 0 st1 Absent Absent)
      as (st2 & H1 & _ & H3 & H4 & _); try reflexivity; try exact E;
      try (intros vs Hv; discriminate Hv).
    exists st2. auto.
  - vm_compute in E. discriminate E.
Defined.

(* ----------------------------------------------------------------- *)
(** ** Initial layout entries *)

Lemma str_eqb_sym a b : str_eqb a b = str_eqb b a.
Proof.
  destruct (str_eqb a b) eqn:E, (str_eqb b a) eqn:F; try reflexivity.
  - apply str_eqb_eq in E. subst. rewrite str_eqb_refl in F. discriminate.
  - apply str_eqb_eq in F. subst. rewrite str_eqb_refl in E. discriminate.
Qed.

Lemma map_has_get m k :
  map_has m k = match map_get m k with Some _ => true | None => false end.
Proof.
  induction m as [|[k' v'] m IH]; simpl; [reflexivity|].
  destruct (str_eqb k' k); simpl; [reflexivity|exact IH].
Qed.

Lemma map_get_set m k v k' :
  map_get (map_set m k v) k' = if str_eqb k k' then Some v else map_get m k'.
Proof.
  induction m as [|[k0 v0] m IH]; simpl.
  - destruct (str_eqb k k'); reflexivity.
  - destruct (str_eqb k0 k) eqn:E; simpl.
    + apply str_eqb_eq in E. subst k0. destruct (str_eqb k k'); reflexivity.
    + rewrite IH. destruct (str_eqb k0 k') eqn:F; [|reflexivity].
      apply str_eqb_eq in F. subst k'. rewrite str_eqb_sym, E. reflexivity.
Qed.

Lemma initial_layout_get ns m up id :
  (map_get m id <> None -> map_get (initial_layout ns m up) id = map_get m id) /\
  (map_get m id = None ->
   match find (fun n => str_eqb (n_id n) id) ns with
   | None => map_get (initial_layout ns m up) id = None
   | Some n => exists e, map_get (initial_layout ns m up) id = Some e /\
       l_size e = mkVec 100 100 /\
       l_collapsed e = match n_isCollapsed n with Some true => true | _ => false end /\
       (forall p, n_position n = Some p -> l_pos e = p)
   end).
Proof.
  revert m up. induction ns as [|n ns IH]; intros m up; simpl.
  { split; [reflexivity|]. intros H. exact H. }
  rewrite map_has_get.
  destruct (map_get m (n_id n)) as [e0|] eqn:Hn; simpl.
  - split; [apply IH|]. intros H. destruct (str_eqb (n_id n) id) eqn:E.
    + apply str_eqb_eq in E. subst id. congruence.
    + apply IH. exact H.
  - set (e := mkLayout _ _ _). set (up' := up ++ _).
    assert (Same : forall k, map_get m k <> None -> str_eqb (n_id n) k = false).
    { intros k Hk. destruct (str_eqb (n_id n) k) eqn:E; [|reflexivity].
      apply str_eqb_eq in E. subst k. contradiction. }
    split.
    + intros H. rewrite (proj1 (IH _ up')); rewrite map_get_set, (Same id H);
        [reflexivity|exact H].
    + intros H. destruct (str_eqb (n_id n) id) eqn:E.
      * exists e. rewrite (proj1 (IH _ up')); rewrite map_get_set, E; [|discriminate].
        split; [reflexivity|]. split; [reflexivity|]. split; [reflexivity|].
        intros p Hp. unfold e. rewrite Hp. reflexivity.
      * apply (proj2 (IH _ up')). rewrite map_get_set, E. exact H.
Qed.

(** [Editor.initialState] gives every node id exactly the entry of the
    first node carrying it: a 100 x 100 box, collapsed only when
    [isCollapsed] is [true], at the node's own [position] when it has one.
    Ids that no node carries get no entry. *)
Theorem initialState_layout_entries ns id :
  (find (fun n => str_eqb (n_id n) id) ns = None ->
   map_get (initialState_layout ns) id = None) /\
  (forall n, find (fun n => str_eqb (n_id n) id) ns = Some n ->
   exists e, map_get (initialState_layout ns) id = Some e /\
     l_size e = mkVec 100 100 /\
     l_collapsed e = match n_isCollapsed n with Some true => true | _ => false end /\
     (forall p, n_position n = Some p -> l_pos e = p)).
Proof.
  pose proof (proj2 (initial_layout_get ns [] [] id) eq_refl) as H.
  unfold initialState_layout. split.
  - intros F. rewrite F in H. exact H.
  - intros n F. rewrite F in H. exact H.
Qed.

Lemma initialState_layout_entries_witness :
  let n1 := mkNode (s "a") (s "t") (Some (mkVec 5 7)) (Some true) [] [] in
  let n2 := mkNode (s "a") (s "t") None None [] [] in
  find (fun n => str_eqb (n_id n) (s "a")) [n1; n2] = Some n1 /\
  exists e, map_get (initialState_layout [n1; n2]) (s "a") = Some e /\
    l_size e = mkVec 100 100 /\ l_collapsed e = true /\ l_pos e = mkVec 5 7.
Proof.
  intros n1 n2. split; [vm_compute; reflexivity|].
  destruct (proj2 (initialState_layout_entries [n1; n2] (s "a")) n1
              ltac:(vm_compute; reflexivity)) as (e & H1 & H2 & H3 & H4).
  exists e. split; [exact H1|]. split; [exact H2|]. split; [exact H3|].
  apply H4. reflexivity.
Defined.

(* ----------------------------------------------------------------- *)
(** ** Deleting a connection whose output node is gone *)

(** [removeConnection] is not atomic: when the engine applies the removal
    of the selected connection itself and no node carries the output
    endpoint's id, the input port has already been rewritten when the
    output side throws. Delete then ends in the exception with the
    connection half removed and the selection kept. *)
Theorem delete_connection_half_removed cfg st id i o ri vi :
  onChanged cfg = false \/ demoMode cfg = true ->
  selection st = Some (ItemConnection, id) ->
  extractConnectionFromId id = Some (i, o) ->
  find_ref st (ep_nodeId i) = Some ri ->
  port_conn st ri KInput (ep_port i) = Some vi ->
  find_ref st (ep_nodeId o) = None ->
  exists st',
    onKeyDownDelete cfg st =
      Thrown (protocol_events cfg (ConnectionRemoved id i o) (MRemoveConnection i o)) st' /\
    selection st' = selection st /\ nodes st' = nodes st /\
    port_conn st' ri KInput (ep_port i) =
      Some (removeFromArrayOrValue vi (inl (plain_conn (ep_nodeId o) (ep_port o)))) /\
    (forall r side j, (r, side, j) <> (ri, KInput, ep_port i) ->
       port_conn st' r side j = port_conn st r side j).
Proof.
  intros Hc Hsel Hex Fi Pi Fo.
  destruct (port_conn_inv _ _ _ _ _ Pi) as (ni & pi & Hni & Epi & <-).
  set (st1 := write_node st ri (set_input_conn ni (ep_port i)
                (removeFromArrayOrValue (p_connection pi)
                   (inl (plain_conn (ep_nodeId o) (ep_port o)))))).
  assert (R : removeConnection st i o = Err st1).
  { unfold removeConnection. cbv zeta. rewrite Fi, Hni, Epi, Fo. reflexivity. }
  exists st1. split; [|split; [reflexivity|split; [reflexivity|split]]].
  - unfold onKeyDownDelete. rewrite Hsel, Hex. unfold dispatch, protocol_events.
    destruct Hc as [Hc|Hc]; rewrite Hc; simpl; rewrite ?orb_true_r; simpl;
      rewrite R; reflexivity.
  - unfold st1. rewrite (port_conn_write_input _ _ _ _ _ _ _ _ _ Hni Epi), !Nat.eqb_refl.
    reflexivity.
  - intros r side j N. unfold st1.
    rewrite (port_conn_write_input _ _ _ _ _ _ _ _ _ Hni Epi).
    destruct (Nat.eqb r ri) eqn:E1, side, (Nat.eqb j (ep_port i)) eqn:E2;
      cbn [andb kind_eqb]; try reflexivity.
    apply Nat.eqb_eq in E1, E2. subst. contradiction.
Qed.

Lemma delete_connection_half_removed_witness :
  let st := mkEngine [fx_B] [0] [] (mkTransform 0 0 1)
                     (Some (ItemConnection, computeConnectionId fx_Bin fx_Aout)) in
  exists st', onKeyDownDelete fx_cfg_nohook st =
                Thrown [EvApply (MRemoveConnection fx_Bin fx_Aout)] st' /\
              port_conn st' 0 KInput 0 = Some Absent.
Proof.
  intros st.
  destruct (delete_connection_half_removed fx_cfg_nohook st
              (computeConnectionId fx_Bin fx_Aout) fx_Bin fx_Aout 0
              (Single (plain_conn (s "A") 0)))
    as (st' & H1 & _ & _ & H4 & _);
    try (left; reflexivity); try (vm_compute; reflexivity).
  exists st'. split; [exact H1|exact H4].
Defined.

(* ----------------------------------------------------------------- *)
(** ** Creating a node *)

(** A node dropped inside the editor's bounding rectangle gets the id
    [type_hash] and a collapsed 100 x 100 layout entry at the drop point
    taken relative to the rectangle; no other layout entry changes. When
    the engine applies the change itself (no hook, or [demoMode]) a copy of
    the prototype under the new id is appended to [nodes]; with a hook and
    no [demoMode] [nodes] stays as it is while the layout entry is already
    there. *)
Theorem createNewNode_inside cfg st proto hash pos bx by_ bw bh :
  (bx <= vx pos <= bx + bw)%Q -> (by_ <= vy pos <= by_ + bh)%Q ->
  let id := n_type proto ++ ch_us :: hash in
  let pos' := mkVec (vx pos - bx) (vy pos - by_) in
  let n := mkNode id (n_type proto) (n_position proto) (n_isCollapsed proto)
                  (n_inputs proto) (n_outputs proto) in
  let applied := negb (onChanged cfg) || demoMode cfg in
  exists st',
    createNewNode cfg st proto hash pos (bx, by_, bw, bh) =
      Done (protocol_events cfg (NodeCreated n) (MCreateNode proto id pos')) st' /\
    map_get (nodesState st') id = Some (mkLayout pos' (mkVec 100 100) true) /\
    (forall k, str_eqb id k = false -> map_get (nodesState st') k = map_get (nodesState st) k) /\
    nodes st' = (if applied then nodes st ++ [length (heap st)] else nodes st) /\
    heap st' = (if applied then heap st ++ [n] else heap st).
Proof.
  intros [Hx1 Hx2] [Hy1 Hy2] id pos' n applied.
  assert (R : forall a b, (a <= b)%Q -> Qle_bool a b = true) by (intros; apply Qle_bool_iff; auto).
  unfold createNewNode. rewrite (R _ _ Hx1), (R _ _ Hx2), (R _ _ Hy1), (R _ _ Hy2). cbn [andb negb].
  fold id pos' n. unfold dispatch, protocol_events, applied.
  destruct (onChanged cfg), (demoMode cfg); cbn [negb orb apply_mutation set_nodesState
    nodesState nodes heap]; eexists; (split; [reflexivity|]); simpl;
    rewrite ?map_set_set; unfold new_node_layout;
    (split; [apply map_get_set_same|]);
    (split; [intros k Hk; rewrite map_get_set, Hk; reflexivity|]); auto.
Qed.

Lemma createNewNode_inside_witness :
  exists st',
    createNewNode fx_cfg_nohook fx_single_engine fx_C (s "xyz") (mkVec 50 60)
                  (10, 20, 200, 200)%Q = Done [EvApply (MCreateNode fx_C (s "t_xyz") (mkVec (50 - 10) (60 - 20)))] st' /\
    map_get (nodesState st') (s "t_xyz") = Some (mkLayout (mkVec (50 - 10) (60 - 20)) (mkVec 100 100) true) /\
    nodes st' = [0; 1; 2; 3].
Proof.
  destruct (createNewNode_inside fx_cfg_nohook fx_single_engine fx_C (s "xyz") (mkVec 50 60)
              10 20 200 200) as (st' & H1 & H2 & _ & H4 & _);
    try (split; vm_compute; discriminate).
  exists st'. split; [exact H1|]. split; [exact H2|]. rewrite H4. reflexivity.
Defined.

(* ----------------------------------------------------------------- *)
(** ** Connection ids without a separator *)

Lemma index_of_aux_absent p t pos :
  contains p t = false -> index_of_aux p t pos = (-1)%Z.
Proof.
  revert pos. induction t as [|x t IH]; intros pos H; simpl in *.
  - rewrite orb_false_r in H. rewrite H. reflexivity.
  - apply orb_false_iff in H as [H1 H2]. rewrite H1. apply IH. exact H2.
Qed.

(** An id with no ["__"] in it decodes to nothing: [indexOf] gives -1, so
    the input half is [id.substr(0, -1)], the empty string, which the
    endpoint pattern rejects. Pressing Delete while such an id is the
    selected connection throws before anything is reported or changed. *)
Theorem extractConnectionFromId_needs_separator id :
  contains (s "__") id = false ->
  extractConnectionFromId id = None /\
  (forall cfg st, selection st = Some (ItemConnection, id) ->
   onKeyDownDelete cfg st = Thrown [] st).
Proof.
  intros H.
  assert (E : extractConnectionFromId id = None).
  { unfold extractConnectionFromId, index_of. rewrite (index_of_aux_absent _ _ _ H).
    reflexivity. }
  split; [exact E|]. intros cfg st Hs. unfold onKeyDownDelete. rewrite Hs, E. reflexivity.
Qed.

Lemma extractConnectionFromId_needs_separator_witness :
  contains (s "__") (s "A_0_input") = false /\
  extractConnectionFromId (s "A_0_input") = None.
Proof.
  split; [vm_compute; reflexivity|].
  apply (extractConnectionFromId_needs_separator (s "A_0_input")). vm_compute. reflexivity.
Defined.

(* ----------------------------------------------------------------- *)
(** ** Derived edges end at existing nodes and ports *)

Lemma nodeDict_get_some ns id m : nodeDict_get ns id = Some m -> In m ns /\ n_id m = id.
Proof.
  unfold nodeDict_get. intros H. apply find_some in H as [Hi He].
  split; [apply in_rev; exact Hi|apply str_eqb_eq; exact He].
Qed.

Lemma opp_connection_port m self c oc :
  opp_connection m self c = Some oc -> exists po, nth_error (n_outputs m) (c_port c) = Some po.
Proof.
  unfold opp_connection. destruct (nth_error _ _) as [po|]; [|discriminate].
  intros _. exists po. reflexivity.
Qed.

Lemma derived_edge_ok ns self i c oc m :
  nodeDict_get ns (c_nodeId c) = Some m -> opp_connection m self c = Some oc ->
  let e := derived_edge self i c oc in
  ee_nodeId (fst e) = n_id self /\ ee_kind (fst e) = KInput /\ ee_kind (snd e) = KOutput /\
  exists m po, In m ns /\ n_id m = ee_nodeId (snd e) /\
    nth_error (n_outputs m) (ee_port (snd e)) = Some po.
Proof.
  intros Hd Ho e. destruct (nodeDict_get_some _ _ _ Hd) as [Hin Hid].
  destruct (opp_connection_port _ _ _ _ Ho) as [po Hpo].
  split; [reflexivity|]. split; [reflexivity|]. split; [reflexivity|].
  exists m, po. auto.
Qed.

Lemma derive_many_ok ns self i cs es :
  derive_many ns self i cs = Some es -> forall e, In e es ->
  ee_nodeId (fst e) = n_id self /\ ee_kind (fst e) = KInput /\ ee_kind (snd e) = KOutput /\
  exists m po, In m ns /\ n_id m = ee_nodeId (snd e) /\
    nth_error (n_outputs m) (ee_port (snd e)) = Some po.
Proof.
  revert es. induction cs as [|c cs IH]; intros es H e He; simpl in H.
  - injection H as <-. destruct He.
  - destruct (nodeDict_get ns (c_nodeId c)) as [m|] eqn:Hd; [|exact (IH _ H e He)].
    destruct (opp_connection m self c) as [oc|] eqn:Ho; [|discriminate].
    destruct (derive_many ns self i cs) as [rest|] eqn:Hr; [|discriminate].
    injection H as <-. destruct He as [<-|He].
    + exact (derived_edge_ok ns self i c oc m Hd Ho).
    + exact (IH rest eq_refl e He).
Qed.

Lemma derive_inputs_ok ns self ins i es :
  derive_inputs ns self ins i = Some es -> forall e, In e es ->
  ee_nodeId (fst e) = n_id self /\ ee_kind (fst e) = KInput /\ ee_kind (snd e) = KOutput /\
  exists m po, In m ns /\ n_id m = ee_nodeId (snd e) /\
    nth_error (n_outputs m) (ee_port (snd e)) = Some po.
Proof.
  revert i es. induction ins as [|p ins IH]; intros i es H e He; simpl in H.
  - injection H as <-. destruct He.
  - destruct (p_connection p) as [|c|cs].
    + exact (IH _ _ H e He).
    + destruct (nodeDict_get ns (c_nodeId c)) as [m|] eqn:Hd; [|exact (IH _ _ H e He)].
      destruct (opp_connection m self c) as [oc|] eqn:Ho; [|discriminate].
      destruct (negb _); [exact (IH _ _ H e He)|].
      destruct (derive_inputs ns self ins (S i)) as [rest|] eqn:Hr; [|discriminate].
      injection H as <-. destruct He as [<-|He].
      * exact (derived_edge_ok ns self i c oc m Hd Ho).
      * exact (IH _ _ Hr e He).
    + destruct (derive_many ns self i cs) as [here|] eqn:Hm; [|discriminate].
      destruct (derive_inputs ns self ins (S i)) as [rest|] eqn:Hr; [|discriminate].
      injection H as <-. apply in_app_or in He as [He|He].
      * exact (derive_many_ok _ _ _ _ _ Hm e He).
      * exact (IH _ _ Hr e He).
Qed.

(** Every edge a render pass derives goes from an input of one of the
    rendered nodes to an output port that exists on a rendered node
    carrying the referenced id: references to missing nodes are skipped,
    and one to a missing output port makes the pass throw instead of
    drawing a dangling edge. *)
Theorem derive_connections_endpoints ns es e :
  derive_connections ns = Some es -> In e es ->
  ee_kind (fst e) = KInput /\ ee_kind (snd e) = KOutput /\
  (exists n, In n ns /\ n_id n = ee_nodeId (fst e)) /\
  (exists m po, In m ns /\ n_id m = ee_nodeId (snd e) /\
     nth_error (n_outputs m) (ee_port (snd e)) = Some po).
Proof.
  unfold derive_connections.
  assert (G : forall l es, incl l ns ->
    fold_right (fun n acc => let* here := derive_inputs ns n (n_inputs n) 0 in
                             let* acc := acc in Some (here ++ acc)) (Some []) l = Some es ->
    forall e, In e es ->
    ee_kind (fst e) = KInput /\ ee_kind (snd e) = KOutput /\
    (exists n, In n ns /\ n_id n = ee_nodeId (fst e)) /\
    (exists m po, In m ns /\ n_id m = ee_nodeId (snd e) /\
       nth_error (n_outputs m) (ee_port (snd e)) = Some po)).
  { induction l as [|n l IH]; intros es0 Hl H e0 He; simpl in H.
    - injection H as <-. destruct He.
    - destruct (derive_inputs ns n (n_inputs n) 0) as [here|] eqn:Hh; [|discriminate].
      destruct (fold_right _ _ l) as [acc|] eqn:Ha; [|discriminate].
      injection H as <-. apply in_app_or in He as [He|He].
      + destruct (derive_inputs_ok _ _ _ _ _ Hh e0 He) as (H1 & H2 & H3 & H4).
        split; [exact H2|]. split; [exact H3|]. split; [|exact H4].
        exists n. split; [apply Hl; left; reflexivity|symmetry; exact H1].
      + apply (IH acc); [intros x Hx; apply Hl; right; exact Hx|reflexivity|exact He]. }
  intros H He. exact (G ns es (incl_refl ns) H e He).
Qed.

Lemma derive_connections_endpoints_witness :
  let e := derived_edge fx_B 0 (plain_conn (s "A") 0) (plain_conn (s "B") 0) in
  derive_connections [fx_A; fx_B; fx_C] = Some [e] /\
  (exists m po, In m [fx_A; fx_B; fx_C] /\ n_id m = ee_nodeId (snd e) /\
     nth_error (n_outputs m) (ee_port (snd e)) = Some po).
Proof.
  intros e. split; [vm_compute; reflexivity|].
  apply (derive_connections_endpoints [fx_A; fx_B; fx_C] [e] e);
    [vm_compute; reflexivity|left; reflexivity].
Defined.

(* ----------------------------------------------------------------- *)
(** ** The connections cascaded by a node removal *)

Lemma indices_where_spec f ps i js j :
  indices_where f ps i = Some js -> In j js ->
  i <= j /\ exists p, nth_error ps (j - i) = Some p /\ f p = Some true.
Proof.
  revert i js. induction ps as [|p ps IH]; intros i js H Hj; simpl in H.
  - injection H as <-. destruct Hj.
  - destruct (f p) as [b|] eqn:Hf; [|discriminate].
    destruct (indices_where f ps (S i)) as [r|] eqn:Hr; [|discriminate].
    injection H as <-.
    assert (Rest : In j r -> i <= j /\ exists p', nth_error (p :: ps) (j - i) = Some p' /\
                                          f p' = Some true).
    { intros Hj'. destruct (IH _ _ Hr Hj') as [Hle Hp]. split; [lia|].
      replace (j - i) with (S (j - S i)) by lia. exact Hp. }
    destruct b; [|exact (Rest Hj)].
    destruct Hj as [<-|Hj]; [|exact (Rest Hj)].
    split; [lia|]. rewrite Nat.sub_diag. exists p. auto.
Qed.

Lemma filter_opt_incl {A} (f : A -> option bool) l r :
  filter_opt f l = Some r -> incl r l.
Proof.
  revert r. induction l as [|x l IH]; intros r H y Hy; simpl in H.
  - injection H as <-. destruct Hy.
  - destruct (f x) as [b|]; [|discriminate].
    destruct (filter_opt f l) as [r'|] eqn:Hr; [|discriminate].
    injection H as <-. specialize (IH r' eq_refl).
    destruct b; [destruct Hy as [<-|Hy]; [left; reflexivity|]|]; right; apply IH; exact Hy.
Qed.

Lemma cascade_fold_ok st self side idx peers here a b :
  incl peers (node_list st) ->
  fold_right
    (fun peer acc =>
       let* acc := acc in
       let peerPorts := match side with KInput => n_outputs peer | KOutput => n_inputs peer end in
       let* ids := indices_where (epPredicate (n_id self)) peerPorts 0 in
       Some (map (fun j =>
                match side with
                | KInput => (mkEndpoint (n_id self) idx KInput, mkEndpoint (n_id peer) j KOutput)
                | KOutput => (mkEndpoint (n_id peer) j KInput, mkEndpoint (n_id self) idx KOutput)
                end) ids ++ acc))
    (Some []) peers = Some here ->
  In (a, b) here ->
  ep_kind a = KInput /\ ep_kind b = KOutput /\
  match side with
  | KInput => ep_nodeId a = n_id self /\ ep_port a = idx /\
      exists peer p, In peer (node_list st) /\ n_id peer = ep_nodeId b /\
        nth_error (n_outputs peer) (ep_port b) = Some p /\ epPredicate (n_id self) p = Some true
  | KOutput => ep_nodeId b = n_id self /\ ep_port b = idx /\
      exists peer p, In peer (node_list st) /\ n_id peer = ep_nodeId a /\
        nth_error (n_inputs peer) (ep_port a) = Some p /\ epPredicate (n_id self) p = Some true
  end.
Proof.
  revert here. induction peers as [|peer peers IH]; intros here Hincl H Hin; simpl in H.
  - injection H as <-. destruct Hin.
  - destruct (fold_right _ _ peers) as [acc|] eqn:Hacc; [|discriminate].
    destruct (indices_where _ _ 0) as [ids|] eqn:Hids; [|discriminate].
    injection H as <-. apply in_app_or in Hin as [Hin|Hin].
    + apply in_map_iff in Hin as (j & Hj & Hjin).
      destruct (indices_where_spec _ _ _ _ _ Hids Hjin) as (_ & p & Hp & Hf).
      rewrite Nat.sub_0_r in Hp.
      assert (Hpeer : In peer (node_list st)) by (apply Hincl; left; reflexivity).
      destruct side; injection Hj as <- <-; simpl;
        (split; [reflexivity|]); (split; [reflexivity|]);
        (split; [reflexivity|]); (split; [reflexivity|]); exists peer, p; auto.
    + apply (IH acc); [intros x Hx; apply Hincl; right; exact Hx|reflexivity|exact Hin].
Qed.

Lemma cascade_ports_ok st self side ps idx cs a b :
  cascade_ports st self side ps idx = Some cs -> In (a, b) cs ->
  ep_kind a = KInput /\ ep_kind b = KOutput /\
  match side with
  | KInput => ep_nodeId a = n_id self /\ idx <= ep_port a /\
      (exists q, nth_error ps (ep_port a - idx) = Some q /\
                 isEmptyArrayOrUndefined (p_connection q) = false) /\
      exists peer p, In peer (node_list st) /\ n_id peer = ep_nodeId b /\
        nth_error (n_outputs peer) (ep_port b) = Some p /\ epPredicate (n_id self) p = Some true
  | KOutput => ep_nodeId b = n_id self /\ idx <= ep_port b /\
      (exists q, nth_error ps (ep_port b - idx) = Some q /\
                 isEmptyArrayOrUndefined (p_connection q) = false) /\
      exists peer p, In peer (node_list st) /\ n_id peer = ep_nodeId a /\
        nth_error (n_inputs peer) (ep_port a) = Some p /\ epPredicate (n_id self) p = Some true
  end.
Proof.
  revert idx cs. induction ps as [|q ps IH]; intros idx cs H Hin; simpl in H.
  - injection H as <-. destruct Hin.
  - assert (Step : forall j, S idx <= j -> nth_error (q :: ps) (j - idx) = nth_error ps (j - S idx))
      by (intros j Hj; replace (j - idx) with (S (j - S idx)) by lia; reflexivity).
    destruct (isEmptyArrayOrUndefined (p_connection q)) eqn:Hq.
    + destruct (IH (S idx) cs H Hin) as (H1 & H2 & H3). split; [exact H1|]. split; [exact H2|].
      destruct side; destruct H3 as (H4 & H5 & H6 & H7); (split; [exact H4|]);
        (split; [lia|]); rewrite Step by exact H5; auto.
    + destruct (filter_opt _ _) as [peers|] eqn:Hp; [|discriminate].
      destruct (fold_right _ _ peers) as [here|] eqn:Hh; [|discriminate].
      destruct (cascade_ports st self side ps (S idx)) as [rest|] eqn:Hr; [|discriminate].
      injection H as <-. apply in_app_or in Hin as [Hin|Hin].
      * destruct (cascade_fold_ok st self side idx peers here a b
                    (fun x Hx => filter_opt_incl _ _ _ Hp x Hx) Hh Hin) as (H1 & H2 & H3).
        split; [exact H1|]. split; [exact H2|].
        destruct side; destruct H3 as (H4 & H5 & H6); (split; [exact H4|]);
          (split; [lia|]); (split; [|exact H6]); rewrite H5, Nat.sub_diag;
          exists q; auto.
      * destruct (IH (S idx) rest Hr Hin) as (H1 & H2 & H3). split; [exact H1|].
        split; [exact H2|].
        destruct side; destruct H3 as (H4 & H5 & H6 & H7); (split; [exact H4|]);
          (split; [lia|]); rewrite Step by exact H5; auto.
Qed.

Lemma find_index_some {A} (f : A -> bool) l k :
  find_index f l = Some k -> exists x, nth_error l k = Some x /\ f x = true.
Proof.
  revert k. induction l as [|x l IH]; intros k H; simpl in H; [discriminate|].
  destruct (f x) eqn:Hx.
  - injection H as <-. exists x. auto.
  - destruct (find_index f l) as [k'|] eqn:Hk; [|discriminate].
    injection H as <-. exact (IH k' eq_refl).
Qed.

(** Every [{input, output}] pair that deleting a node cascades runs from an
    input to an output, has the deleted node on one side at one of its
    non-empty ports, and on the other side names an existing port of a
    listed peer node whose connection references the deleted node. *)
Theorem node_removal_pairs st id index cs i o :
  node_removal st id = Some (index, cs) -> In (i, o) cs ->
  ep_kind i = KInput /\ ep_kind o = KOutput /\
  exists r n, nth_error (nodes st) index = Some r /\ node_at st r = Some n /\ n_id n = id /\
  ((ep_nodeId i = id /\
    (exists q, nth_error (n_inputs n) (ep_port i) = Some q /\
               isEmptyArrayOrUndefined (p_connection q) = false) /\
    exists peer p, In peer (node_list st) /\ n_id peer = ep_nodeId o /\
      nth_error (n_outputs peer) (ep_port o) = Some p /\ epPredicate id p = Some true) \/
   (ep_nodeId o = id /\
    (exists q, nth_error (n_outputs n) (ep_port o) = Some q /\
               isEmptyArrayOrUndefined (p_connection q) = false) /\
    exists peer p, In peer (node_list st) /\ n_id peer = ep_nodeId i /\
      nth_error (n_inputs peer) (ep_port i) = Some p /\ epPredicate id p = Some true)).
Proof.
  unfold node_removal. intros H Hin.
  destruct (find_index _ (nodes st)) as [k|] eqn:Hk; [|discriminate].
  destruct (nth_error (nodes st) k) as [r|] eqn:Hr; [|discriminate].
  destruct (node_at st r) as [n|] eqn:Hn; [|discriminate].
  destruct (correspondingConnections st n) as [cs'|] eqn:Hc; [|discriminate].
  injection H as <- <-.
  assert (Hid : n_id n = id).
  { destruct (find_index_some _ _ _ Hk) as (x & Hx & Hf).
    rewrite Hr in Hx. injection Hx as <-. rewrite Hn in Hf. apply str_eqb_eq. exact Hf. }
  unfold correspondingConnections in Hc.
  destruct (cascade_ports st n KInput (n_inputs n) 0) as [ins|] eqn:Hi; [|discriminate].
  destruct (cascade_ports st n KOutput (n_outputs n) 0) as [outs|] eqn:Ho; [|discriminate].
  injection Hc as <-. rewrite <- Hid.
  apply in_app_or in Hin as [Hin|Hin].
  - destruct (cascade_ports_ok _ _ _ _ _ _ _ _ Hi Hin) as (H1 & H2 & H3 & _ & H5 & H6).
    rewrite Nat.sub_0_r in H5.
    split; [exact H1|]. split; [exact H2|]. exists r, n.
    split; [exact Hr|]. split; [exact Hn|]. split; [reflexivity|].
    left; split; [exact H3|]. split; [exact H5|exact H6].
  - destruct (cascade_ports_ok _ _ _ _ _ _ _ _ Ho Hin) as (H1 & H2 & H3 & _ & H5 & H6).
    rewrite Nat.sub_0_r in H5.
    split; [exact H1|]. split; [exact H2|]. exists r, n.
    split; [exact Hr|]. split; [exact Hn|]. split; [reflexivity|].
    right; split; [exact H3|]. split; [exact H5|exact H6].
Qed.

Lemma node_removal_pairs_witness :
  node_removal fx_single_engine (s "A") = Some (0, [(fx_Bin, fx_Aout)]) /\
  ep_kind fx_Bin = KInput /\ ep_kind fx_Aout = KOutput.
Proof.
  split; [vm_compute; reflexivity|].
  destruct (node_removal_pairs fx_single_engine (s "A") 0 [(fx_Bin, fx_Aout)] fx_Bin fx_Aout)
    as (H1 & H2 & _); [vm_compute; reflexivity|left; reflexivity|].
  split; [exact H1|exact H2].
Defined.

(* ----------------------------------------------------------------- *)
(** ** A node deletion that completes *)

Lemma removeConnection_keeps_lists st i o st' :
  (removeConnection st i o = Ok st' \/ removeConnection st i o = Err st') ->
  nodes st' = nodes st /\ nodesState st' = nodesState st.
Proof.
  unfold removeConnection. cbv zeta. intros H.
  destruct (find_ref st (ep_nodeId i)); [|res_cases H; auto].
  destruct (node_at st _); [|res_cases H; auto].
  destruct (nth_error _ _); [|res_cases H; auto].
  destruct (find_ref st (ep_nodeId o)); [|res_cases H; auto].
  destruct (node_at _ _); [|res_cases H; auto].
  destruct (nth_error _ _); res_cases H; auto.
Qed.

Lemma remove_all_keeps_lists st cs st' :
  remove_all st cs = Ok st' -> nodes st' = nodes st /\ nodesState st' = nodesState st.
Proof.
  revert st. induction cs as [|[i o] cs IH]; intros st H; simpl in H.
  - injection H as <-. auto.
  - destruct (removeConnection st i o) as [st1|st1] eqn:E; [|discriminate].
    destruct (IH st1 H) as [H1 H2].
    destruct (removeConnection_keeps_lists st i o st1 (or_introl E)) as [H3 H4].
    split; congruence.
Qed.

(** When deleting the selected node completes without an exception, the
    selection is cleared and the layout entries are kept (the deleted
    node's entry included). If the engine applied the removal itself,
    exactly the node's reference is cut out of [nodes], the others keeping
    their order; with a hook and no [demoMode] [nodes] is unchanged. *)
Theorem delete_node_completed cfg st id index cs evs st' :
  selection st = Some (ItemNode, id) ->
  node_removal st id = Some (index, cs) ->
  onKeyDownDelete cfg st = Done evs st' ->
  selection st' = None /\ nodesState st' = nodesState st /\
  nodes st' = (if negb (onChanged cfg) || demoMode cfg
               then remove_at index (nodes st) else nodes st).
Proof.
  intros Hs Hn H. unfold onKeyDownDelete in H. rewrite Hs, Hn in H. unfold dispatch in H.
  destruct (negb (onChanged cfg) || demoMode cfg).
  - simpl in H. destruct (remove_all st cs) as [st1|st1] eqn:E; [|discriminate].
    injection H as _ <-. destruct (remove_all_keeps_lists _ _ _ E) as [H1 H2].
    simpl. rewrite H1, H2. auto.
  - injection H as _ <-. auto.
Qed.

Lemma delete_node_completed_witness :
  let st := select fx_single_engine ItemNode (s "A") in
  exists evs st', onKeyDownDelete fx_cfg_nohook st = Done evs st' /\
    nodes st' = [1; 2] /\ selection st' = None.
Proof.
  intros st. do 2 eexists. split; [vm_compute; reflexivity|].
  edestruct (delete_node_completed fx_cfg_nohook st (s "A") 0 [(fx_Bin, fx_Aout)])
    as (H1 & _ & H3); [reflexivity|vm_compute; reflexivity|vm_compute; reflexivity|].
  split; [exact H3|exact H1].
Defined.
